(** * libp2p-rpc: the request/response correlation of [RPC]

    A shallow embedding of [src/RPC.ts].  That file holds two listings of the
    class [RPC]: the TypeScript one (lines 1-146) and the JavaScript build of
    the next revision (lines 147-285), which adds the [timeout] option and
    the classification of what a handler throws.  The embedding follows the
    JavaScript listing; the line numbers in the comments are those of the
    file.

    The class runs on one thread.  An [async] method is cut at its [await]s
    into the pieces that run without interruption, and the event loop is the
    function [step] over the events that start such a piece. *)

From Stdlib Require Import ZArith Lia Sorted.
From stdpp Require Import gmap strings list fin_maps.

(** ** Data *)

Definition PeerId := string.
Definition Uint8Array := list Byte.byte.

Module RPCProtocol.

(** Modelled from the spec: [RPCProtocol.js] is not in the sources.  The
    spec (section 3) gives the decoded messages these shapes; a field the
    wire leaves out is [None]. *)
Record RPCError := { code : Z; message : string }.

Record Request :=
  { req_name : string; req_id : option Z; req_params : option Uint8Array }.

Record Response :=
  { res_id : Z; res_result : option Uint8Array; res_error : option RPCError }.

Record RPCMessage :=
  { request : option Request; response : option Response }.

End RPCProtocol.
Export RPCProtocol.

(** Modelled from the spec: [RPCException.js] is not in the sources.
    [new RPCException(message, code)] is an error object with these two
    fields, the shape the spec calls [RPCError]. *)
Definition RPCException (message : string) (code : Z) : RPCError :=
  {| code := code; message := message |}.

Module Messages.

(** Modelled from the spec: [RPCMessages.js] is not in the sources.  The
    messages are kept decoded, as [handleMessage] receives them on the
    other side; the byte encoding belongs to the codec. *)
Definition createRequest (name : string) (id : Z) (params : option Uint8Array)
  : RPCMessage :=
  {| request := Some {| req_name := name; req_id := Some id; req_params := params |};
     response := None |}.

Definition createNotification (name : string) (params : option Uint8Array)
  : RPCMessage :=
  {| request := Some {| req_name := name; req_id := None; req_params := params |};
     response := None |}.

Definition createResponse (id : Z) (result : option Uint8Array) : RPCMessage :=
  {| request := None;
     response := Some {| res_id := id; res_result := result; res_error := None |} |}.

Definition createError (id : Z) (message : string) (code : Z) : RPCMessage :=
  {| request := None;
     response := Some {| res_id := id; res_result := None;
                         res_error := Some {| code := code; message := message |} |} |}.

(** The reserved code is the one the spec names, JSON-RPC's. *)
Definition METHOD_NOT_FOUND : Z := (-32601)%Z.

Definition createMethodNotFoundError (id : Z) : RPCMessage :=
  createError id "Method not found" METHOD_NOT_FOUND.

End Messages.

(** What a handler does when it is called: it returns (nothing, or bytes) or
    it throws.  A thrown value is kept by what the [catch] of lines 245-262
    can tell about it. *)
Inductive Thrown :=
| ThrownRPCException (err : RPCError)
    (* err instanceof RPCException *)
| ThrownError (message : string)
    (* err instanceof Error, and not an RPCException *)
| ThrownValue (json : option string).
    (* anything else: [Some s] when JSON.stringify(err) returns and [s] is
       the message of the exception built from what it returns, [None] when
       JSON.stringify(err) throws (a BigInt, a cyclic object) *)

Inductive MethodOutcome :=
| MethodReturns (result : option Uint8Array)
| MethodThrows (err : Thrown).

Abbreviation RPCMethod := (option Uint8Array -> PeerId -> MethodOutcome).

(** A promise is pending until it is settled, once. *)
Inductive Settlement :=
| Pending
| Fulfilled (result : option Uint8Array)
| Rejected (error : RPCError).

(** A [Resolver] is the pair of closures [{ resolve, reject }] of one
    promise: it is the promise's place in the store of promises. *)
Definition Resolver := nat.

(** [setTimeout(() => reject(timeoutError), delay)]. *)
Record Timer := { timer_delay : Z; timer_reject : Resolver; timer_error : RPCError }.

(** How the promise of [handler.send] settles. *)
Inductive SendOutcome :=
| SendOk
| SendError (message : string).

(** How a piece of code ends: normally, or with the transport's error. *)
Inductive Completion :=
| Completed
| Failed (message : string).

(** The object, with the part of the runtime it acts on. *)
Record RPC := mkRPC {
  options_protocol : string;
  options_timeout : Z;
  methods : gmap string RPCMethod;
  msgPromises : gmap Z Resolver;
  genMsgId_id : Z;                   (* the [id] that genMsgId closes over *)
  promises : list Settlement;        (* every promise made at line 212 *)
  timers : list Timer;               (* the timeouts that have not fired *)
  sent : list (PeerId * RPCMessage); (* the calls of handler.send, in order *)
  suspended : list Z                 (* the requests waiting at line 201 *)
}.

Definition with_methods (m : gmap string RPCMethod) (rpc : RPC) : RPC :=
  mkRPC (options_protocol rpc) (options_timeout rpc) m (msgPromises rpc)
        (genMsgId_id rpc) (promises rpc) (timers rpc) (sent rpc) (suspended rpc).

Definition with_msgPromises (m : gmap Z Resolver) (rpc : RPC) : RPC :=
  mkRPC (options_protocol rpc) (options_timeout rpc) (methods rpc) m
        (genMsgId_id rpc) (promises rpc) (timers rpc) (sent rpc) (suspended rpc).

Definition with_id (i : Z) (rpc : RPC) : RPC :=
  mkRPC (options_protocol rpc) (options_timeout rpc) (methods rpc) (msgPromises rpc)
        i (promises rpc) (timers rpc) (sent rpc) (suspended rpc).

Definition with_promises (ps : list Settlement) (rpc : RPC) : RPC :=
  mkRPC (options_protocol rpc) (options_timeout rpc) (methods rpc) (msgPromises rpc)
        (genMsgId_id rpc) ps (timers rpc) (sent rpc) (suspended rpc).

Definition with_timers (ts : list Timer) (rpc : RPC) : RPC :=
  mkRPC (options_protocol rpc) (options_timeout rpc) (methods rpc) (msgPromises rpc)
        (genMsgId_id rpc) (promises rpc) ts (sent rpc) (suspended rpc).

Definition with_sent (s : list (PeerId * RPCMessage)) (rpc : RPC) : RPC :=
  mkRPC (options_protocol rpc) (options_timeout rpc) (methods rpc) (msgPromises rpc)
        (genMsgId_id rpc) (promises rpc) (timers rpc) s (suspended rpc).

Definition with_suspended (s : list Z) (rpc : RPC) : RPC :=
  mkRPC (options_protocol rpc) (options_timeout rpc) (methods rpc) (msgPromises rpc)
        (genMsgId_id rpc) (promises rpc) (timers rpc) (sent rpc) s.

(** ** The runtime *)

(** The functions [resolve] and [reject] of a promise do nothing once the
    promise is settled. *)
Definition settle (p : Resolver) (s : Settlement) (ps : list Settlement)
  : list Settlement :=
  match ps !! p with
  | Some Pending => <[p := s]> ps
  | _ => ps
  end.

Definition resolve (r : Resolver) (result : option Uint8Array) (rpc : RPC) : RPC :=
  with_promises (settle r (Fulfilled result) (promises rpc)) rpc.

Definition reject (r : Resolver) (error : RPCError) (rpc : RPC) : RPC :=
  with_promises (settle r (Rejected error) (promises rpc)) rpc.

(** [this.handler.send(message, peer)]: the call is recorded; how its promise
    settles is the transport's business and comes with the event. *)
Definition handler_send (message : RPCMessage) (peer : PeerId) (rpc : RPC) : RPC :=
  with_sent (sent rpc ++ [(peer, message)]) rpc.

(** [return yield this.handler.send(message, peer)]. *)
Definition return_send (message : RPCMessage) (peer : PeerId)
    (outcome : SendOutcome) (rpc : RPC) : Completion * RPC :=
  (match outcome with SendOk => Completed | SendError e => Failed e end,
   handler_send message peer rpc).

(** [id++] on a JavaScript number that holds a natural number: exact below
    2^53; at 2^53 the sum is not a double and rounds back to 2^53.  The
    counter starts at 0, so it holds no other value. *)
Definition MAX_EXACT : Z := (2 ^ 53)%Z.

Definition js_incr (n : Z) : Z := if (n <? MAX_EXACT)%Z then (n + 1)%Z else n.

(** ** The class [RPC] *)

(** Lines 165-178. *)
Definition constructor (protocol : option string) (timeout : option Z) : RPC :=
  {| options_protocol := default "/libp2p-rpc/0.0.1" protocol;
     options_timeout := default 5000%Z timeout;
     methods := ∅;
     msgPromises := ∅;
     genMsgId_id := 0%Z;
     promises := [];
     timers := [];
     sent := [];
     suspended := [] |}.

(** Lines 169-172: [() => id++]. *)
Definition genMsgId (rpc : RPC) : Z * RPC :=
  (genMsgId_id rpc, with_id (js_incr (genMsgId_id rpc)) rpc).

(** Lines 194-196. *)
Definition addMethod (name : string) (method : RPCMethod) (rpc : RPC) : RPC :=
  with_methods (<[name := method]> (methods rpc)) rpc.

(** Lines 199-201: [request] up to its first [await]. *)
Definition request_begin (peer : PeerId) (name : string)
    (params : option Uint8Array) (rpc : RPC) : Z * RPC :=
  let '(messageId, rpc) := genMsgId rpc in
  (messageId, handler_send (Messages.createRequest name messageId params) peer rpc).

(** Lines 202-219: [request] from the moment the send has settled.  The
    result is what the caller's promise now depends on: the error thrown at
    line 209, or the promise made at line 212. *)
Definition request_resume (messageId : Z) (outcome : SendOutcome) (rpc : RPC)
  : (RPCError + Resolver) * RPC :=
  match outcome with
  | SendError error_message =>
      (inl {| code := (-32000)%Z; message := error_message |}, rpc)
  | SendOk =>
      let resolver := length (promises rpc) in
      let rpc := with_promises (promises rpc ++ [Pending]) rpc in
      let rpc := with_msgPromises (<[messageId := resolver]> (msgPromises rpc)) rpc in
      if (options_timeout rpc <? 0)%Z then (inr resolver, rpc)
      else
        let timeoutError := RPCException "timeout" 0%Z in
        (inr resolver,
         with_timers (timers rpc ++ [{| timer_delay := options_timeout rpc;
                                        timer_reject := resolver;
                                        timer_error := timeoutError |}]) rpc)
  end.

(** [request] when nothing else runs while the send is in flight. *)
Definition request (peer : PeerId) (name : string) (params : option Uint8Array)
    (outcome : SendOutcome) (rpc : RPC) : (RPCError + Resolver) * RPC :=
  let '(messageId, rpc) := request_begin peer name params rpc in
  request_resume messageId outcome rpc.

(** Line 218: the callback given to [setTimeout], for the [k]-th timeout
    still waiting. *)
Definition timeout_fires (k : nat) (rpc : RPC) : RPC :=
  match timers rpc !! k with
  | None => rpc
  | Some t => reject (timer_reject t) (timer_error t) (with_timers (delete k (timers rpc)) rpc)
  end.

(** Lines 222-225.  [.catch(() => { })] turns either outcome of the send
    into a normal end. *)
Definition notify (peer : PeerId) (name : string) (params : option Uint8Array)
    (outcome : SendOutcome) (rpc : RPC) : Completion * RPC :=
  (match outcome with SendOk => Completed | SendError _ => Completed end,
   handler_send (Messages.createNotification name params) peer rpc).

(** Lines 245-262: what the outer variable [error] holds after the [catch].
    In the last case the inner [catch (error)] binds a variable of its own,
    so the assignment of line 259 goes to that one and the outer [error]
    keeps its [null]. *)
Definition caught (err : Thrown) : option RPCError :=
  match err with
  | ThrownRPCException e => Some e
  | ThrownError m => Some (RPCException m 0%Z)
  | ThrownValue (Some text) => Some (RPCException text 0%Z)
  | ThrownValue None => None
  end.

(** Lines 227-283.  [outcome] is how the send of the reply settles, when a
    reply is sent.  The branch for a request waits twice, for the handler and
    for that send, but reads the object before the first wait only and
    writes nothing, so it is taken as one piece; the handler is taken by
    what it does, [err.stack] (line 252) is not sent and is left out. *)
Definition handleMessage (message : RPCMessage) (peer : PeerId)
    (outcome : SendOutcome) (rpc : RPC) : Completion * RPC :=
  match RPCProtocol.request message with
  | Some request =>
      match methods rpc !! req_name request with
      | None =>
          match req_id request with
          | None => (Completed, rpc)
          | Some id =>
              return_send (Messages.createMethodNotFoundError id) peer outcome rpc
          end
      | Some method =>
          let '(result, error) :=
            match method (req_params request) peer with
            | MethodReturns r => (r, None)
            | MethodThrows err => (None, caught err)
            end in
          match req_id request with
          | None => (Completed, rpc)
          | Some id =>
              match error with
              | Some error =>
                  return_send (Messages.createError id (RPCProtocol.message error)
                                                   (RPCProtocol.code error))
                              peer outcome rpc
              | None =>
                  return_send (Messages.createResponse id result) peer outcome rpc
              end
          end
      end
  | None =>
      match RPCProtocol.response message with
      | Some response =>
          match msgPromises rpc !! res_id response with
          | None => (Completed, rpc)
          | Some resolver =>
              let rpc := with_msgPromises (delete (res_id response) (msgPromises rpc)) rpc in
              match res_error response with
              | None => (Completed, resolve resolver (res_result response) rpc)
              | Some error => (Completed, reject resolver error rpc)
              end
          end
      | None => (Completed, rpc)
      end
  end.

(** ** The event loop *)

(** What can start a piece of the class's code: a call of a public method, a
    send of a suspended [request] that settles, a message the transport hands
    to the callback of line 182, a timeout that runs out. *)
Inductive Event :=
| CallAddMethod (name : string) (method : RPCMethod)
| CallRequest (peer : PeerId) (name : string) (params : option Uint8Array)
| SendSettles (k : nat) (outcome : SendOutcome)
| CallNotify (peer : PeerId) (name : string) (params : option Uint8Array)
             (outcome : SendOutcome)
| Receives (message : RPCMessage) (peer : PeerId) (outcome : SendOutcome)
| TimeoutFires (k : nat).

Definition step (ev : Event) (rpc : RPC) : RPC :=
  match ev with
  | CallAddMethod name method => addMethod name method rpc
  | CallRequest peer name params =>
      let '(messageId, rpc) := request_begin peer name params rpc in
      with_suspended (suspended rpc ++ [messageId]) rpc
  | SendSettles k outcome =>
      match suspended rpc !! k with
      | None => rpc
      | Some messageId =>
          (request_resume messageId outcome
             (with_suspended (delete k (suspended rpc)) rpc)).2
      end
  | CallNotify peer name params outcome => (notify peer name params outcome rpc).2
  | Receives message peer outcome => (handleMessage message peer outcome rpc).2
  | TimeoutFires k => timeout_fires k rpc
  end.

Fixpoint run (evs : list Event) (rpc : RPC) : RPC :=
  match evs with
  | [] => rpc
  | ev :: evs => run evs (step ev rpc)
  end.

(** The message ids that the calls of [request] in a run are given, in the
    order of the calls. *)
Definition issues (ev : Event) (rpc : RPC) : list Z :=
  match ev with
  | CallRequest peer name params => [(request_begin peer name params rpc).1]
  | _ => []
  end.

Fixpoint issued (evs : list Event) (rpc : RPC) : list Z :=
  match evs with
  | [] => []
  | ev :: evs => issues ev rpc ++ issued evs (step ev rpc)
  end.

Definition is_request (ev : Event) : bool :=
  match ev with CallRequest _ _ _ => true | _ => false end.

Fixpoint requests (evs : list Event) : nat :=
  match evs with
  | [] => 0
  | ev :: evs => (if is_request ev then 1 else 0) + requests evs
  end.

(** ** What the statements are about *)

(** A decoded message that is a request; [id] is [None] for a notification. *)
Definition inbound_request (name : string) (id : option Z)
    (params : option Uint8Array) : RPCMessage :=
  {| RPCProtocol.request :=
       Some {| req_name := name; req_id := id; req_params := params |};
     RPCProtocol.response := None |}.

(** A decoded message that is a response. *)
Definition inbound_response (r : Response) : RPCMessage :=
  {| RPCProtocol.request := None; RPCProtocol.response := Some r |}.

(** Two handlers for the examples. *)
Definition echo : RPCMethod := fun params _ => MethodReturns params.
Definition explode (err : Thrown) : RPCMethod := fun _ _ => MethodThrows err.

(** An id that has been given out is in one of three places: its request is
    suspended at the send, or it is registered in [msgPromises], or it is
    spent.  While the counter counts exactly, the ids of the suspended
    requests are distinct, below the counter, and not registered. *)
Record tracked (rpc : RPC) : Prop := {
  suspended_below :
    Forall (fun id => (id < genMsgId_id rpc)%Z) (suspended rpc);
  suspended_NoDup : NoDup (suspended rpc);
  registered_below :
    forall (id : Z) (r : Resolver),
      msgPromises rpc !! id = Some r -> (id < genMsgId_id rpc)%Z;
  registered_resumed :
    forall (id : Z) (r : Resolver),
      msgPromises rpc !! id = Some r -> id ∉ suspended rpc
}.

Definition spent (id : Z) (rpc : RPC) : Prop :=
  (id < genMsgId_id rpc)%Z /\ (id ∉ suspended rpc) /\ msgPromises rpc !! id = None.

(** A message with a response in it that [handleMessage] will look at. *)
Definition carries_response (ev : Event) : bool :=
  match ev with
  | Receives message _ _ =>
      match RPCProtocol.request message, RPCProtocol.response message with
      | None, Some _ => true
      | _, _ => false
      end
  | _ => false
  end.

(** A pending promise that no waiting timeout will reject. *)
Definition unwatched (p : Resolver) (rpc : RPC) : Prop :=
  promises rpc !! p = Some Pending
  /\ Forall (fun t => timer_reject t <> p) (timers rpc).

(** ** The TypeScript listing *)

(** Lines 74-85: [request] of the TypeScript listing from the moment its
    send has settled.  It registers the call and queues no timeout. *)
Definition request_resume_ts (messageId : Z) (outcome : SendOutcome) (rpc : RPC)
  : (RPCError + Resolver) * RPC :=
  match outcome with
  | SendError error_message =>
      (inl {| code := (-32000)%Z; message := error_message |}, rpc)
  | SendOk =>
      let resolver := length (promises rpc) in
      let rpc := with_promises (promises rpc ++ [Pending]) rpc in
      (inr resolver,
       with_msgPromises (<[messageId := resolver]> (msgPromises rpc)) rpc)
  end.

(** Lines 69-86. *)
Definition request_ts (peer : PeerId) (name : string) (params : option Uint8Array)
    (outcome : SendOutcome) (rpc : RPC) : (RPCError + Resolver) * RPC :=
  let '(messageId, rpc) := request_begin peer name params rpc in
  request_resume_ts messageId outcome rpc.

(** Line 285: [createRPC(options)(components)] is [new RPC(components, options)]. *)
Definition createRPC (protocol : option string) (timeout : option Z) : RPC :=
  constructor protocol timeout.

(** ** More of what the statements are about *)

(** The last message given to [handler.send], with its addressee. *)
Definition last_sent (rpc : RPC) : option (PeerId * RPCMessage) := last (sent rpc).

(** The ids of the requests in a log of sent messages. *)
Definition wire_ids (log : list (PeerId * RPCMessage)) : list Z :=
  omap (fun pm : PeerId * RPCMessage =>
          match RPCProtocol.request pm.2 with
          | Some rq => req_id rq
          | None => None
          end) log.

(** The promises and the timeouts hang together: an entry of [msgPromises]
    leads to a promise that exists, two ids never lead to the same promise,
    and a waiting timeout is for a promise that exists, with the configured
    delay, which is not negative, and the error [timeout] at code 0. *)
Record wellformed (rpc : RPC) : Prop := {
  resolvers_exist :
    forall (id : Z) (r : Resolver),
      msgPromises rpc !! id = Some r -> r < length (promises rpc);
  resolvers_distinct :
    forall (id id' : Z) (r : Resolver),
      msgPromises rpc !! id = Some r -> msgPromises rpc !! id' = Some r -> id = id';
  timers_exist :
    Forall (fun t => timer_reject t < length (promises rpc)) (timers rpc);
  timers_are_timeouts :
    Forall (fun t => timer_delay t = options_timeout rpc
                     /\ (0 <= options_timeout rpc)%Z
                     /\ timer_error t = {| code := 0; message := "timeout" |})
           (timers rpc)
}.

(** Every pending promise has a timeout waiting for it. *)
Definition watched (rpc : RPC) : Prop :=
  forall p : Resolver,
    promises rpc !! p = Some Pending ->
    exists (k : nat) (t : Timer), timers rpc !! k = Some t /\ timer_reject t = p.

(** ** Small computations, as checks of the embedding *)

Example genMsgId_counts :
  let '(a, rpc) := genMsgId (constructor None None) in
  let '(b, rpc) := genMsgId rpc in
  let '(c, _) := genMsgId rpc in
  (a, b, c) = (0, 1, 2)%Z.
Proof. reflexivity. Qed.

Example js_incr_sticks : js_incr MAX_EXACT = MAX_EXACT.
Proof. reflexivity. Qed.

Example request_registers :
  let '(r, rpc) := request "peerA" "echo" None SendOk (constructor None None) in
  r = inr 0 /\ msgPromises rpc !! 0%Z = Some 0 /\ promises rpc = [Pending]
  /\ timers rpc = [ {| timer_delay := 5000; timer_reject := 0;
                       timer_error := RPCException "timeout" 0 |} ]
  /\ sent rpc = [("peerA", Messages.createRequest "echo" 0 None)].
Proof. vm_compute. auto. Qed.

Example echo_replies :
  handleMessage (Messages.createRequest "echo" 4 None) "peerB" SendOk
                (addMethod "echo" echo (constructor None None))
  = (Completed,
     handler_send (Messages.createResponse 4 None) "peerB"
                  (addMethod "echo" echo (constructor None None))).
Proof. reflexivity. Qed.

(** ** Promises settle once *)

Section Settle.

Variables (q : Resolver) (s' : Settlement) (ps : list Settlement).

Lemma settle_pending :
  ps !! q = Some Pending -> settle q s' ps !! q = Some s'.
Proof.
  intros Hq. unfold settle. rewrite Hq.
  apply list_lookup_insert_eq. by eapply lookup_lt_Some.
Qed.

Lemma settle_other (p : Resolver) :
  p <> q -> settle q s' ps !! p = ps !! p.
Proof.
  intros Hne. unfold settle.
  destruct (ps !! q) as [[ | | ]|]; try done.
  by apply list_lookup_insert_ne.
Qed.

Lemma settle_settled (p : Resolver) (s : Settlement) :
  ps !! p = Some s -> s <> Pending -> settle q s' ps !! p = Some s.
Proof.
  intros Hp Hs. destruct (decide (p = q)) as [->|Hne].
  - unfold settle. rewrite Hp. by destruct s.
  - by rewrite settle_other.
Qed.

Lemma settle_length : length (settle q s' ps) = length ps.
Proof.
  unfold settle. destruct (ps !! q) as [[ | | ]|]; try done.
  apply length_insert.
Qed.

End Settle.

(** No piece of the class's code changes a promise that is settled. *)
Lemma step_keeps_settled (ev : Event) (rpc : RPC) (p : Resolver) (s : Settlement) :
  promises rpc !! p = Some s -> s <> Pending ->
  promises (step ev rpc) !! p = Some s.
Proof.
  intros Hp Hs. destruct ev as [name m|peer name params|k o|peer name params o|msg peer o|k];
    simpl; try done.
  - destruct (suspended rpc !! k) as [messageId|]; [|done].
    destruct o as [|e]; simpl; [|done].
    destruct (options_timeout rpc <? 0)%Z; simpl;
      (rewrite lookup_app_l; [done|by eapply lookup_lt_Some]).
  - unfold handleMessage.
    destruct (RPCProtocol.request msg) as [rq|].
    + destruct (methods rpc !! req_name rq) as [m|].
      * destruct (m (req_params rq) peer) as [r|err]; [|destruct (caught err)];
          by destruct (req_id rq).
      * by destruct (req_id rq).
    + destruct (RPCProtocol.response msg) as [r|]; [|done].
      destruct (msgPromises rpc !! res_id r) as [resolver|]; [|done].
      destruct (res_error r); simpl; by apply settle_settled.
  - unfold timeout_fires. destruct (timers rpc !! k) as [t|]; [|done].
    simpl. by apply settle_settled.
Qed.

Lemma run_keeps_settled (evs : list Event) (rpc : RPC) (p : Resolver) (s : Settlement) :
  promises rpc !! p = Some s -> s <> Pending ->
  promises (run evs rpc) !! p = Some s.
Proof.
  revert rpc. induction evs as [|ev evs IH]; intros rpc Hp Hs; [done|].
  simpl. apply IH; [|done]. by apply step_keeps_settled.
Qed.

(** ** Responses *)

(** What [handleMessage] does with a response whose id is in [msgPromises]. *)
Lemma handleMessage_response (rpc : RPC) (r : Response) (peer : PeerId)
    (outcome : SendOutcome) (resolver : Resolver) :
  msgPromises rpc !! res_id r = Some resolver ->
  handleMessage (inbound_response r) peer outcome rpc =
    (Completed,
     with_promises
       (settle resolver
          match res_error r with
          | None => Fulfilled (res_result r)
          | Some error => Rejected error
          end (promises rpc))
       (with_msgPromises (delete (res_id r) (msgPromises rpc)) rpc)).
Proof.
  intros Hr. unfold handleMessage. simpl. rewrite Hr. by destruct (res_error r).
Qed.

(** C1. A response that carries the id of a pending call settles that call's
    promise: fulfilled with the response's result when the response has no
    error, rejected with the error it carries otherwise.  The entry of that
    id leaves [msgPromises]; every other entry, every other promise, the
    methods, the timeouts and the messages sent stay as they were, and
    [handleMessage] ends normally. *)
Theorem response_settles_its_call (rpc : RPC) (r : Response) (peer : PeerId)
    (outcome : SendOutcome) (resolver : Resolver) :
  msgPromises rpc !! res_id r = Some resolver ->
  promises rpc !! resolver = Some Pending ->
  let rpc' := (handleMessage (inbound_response r) peer outcome rpc).2 in
  (handleMessage (inbound_response r) peer outcome rpc).1 = Completed
  /\ promises rpc' !! resolver =
       Some match res_error r with
            | None => Fulfilled (res_result r)
            | Some error => Rejected error
            end
  /\ (forall p : Resolver, p <> resolver -> promises rpc' !! p = promises rpc !! p)
  /\ msgPromises rpc' !! res_id r = None
  /\ (forall id : Z, id <> res_id r -> msgPromises rpc' !! id = msgPromises rpc !! id)
  /\ methods rpc' = methods rpc /\ timers rpc' = timers rpc
  /\ sent rpc' = sent rpc /\ genMsgId_id rpc' = genMsgId_id rpc.
Proof.
  intros Hr Hp rpc'. subst rpc'. rewrite (handleMessage_response _ _ _ _ _ Hr). simpl.
  repeat split.
  - by apply settle_pending.
  - intros p Hne. by apply settle_other.
  - apply lookup_delete_eq.
  - intros id Hne. by apply lookup_delete_ne.
Qed.

Lemma response_settles_its_call_witness :
  let rpc := (request "peerA" "echo" None SendOk (constructor None None)).2 in
  let r := {| res_id := 0; res_result := Some [Byte.x2a]; res_error := None |} in
  promises ((handleMessage (inbound_response r) "peerA" SendOk rpc).2) !! 0
  = Some (Fulfilled (Some [Byte.x2a])).
Proof.
  intros rpc r.
  apply (response_settles_its_call rpc r "peerA" SendOk 0); reflexivity.
Defined.

Lemma handleMessage_unknown_response (rpc : RPC) (r : Response) (peer : PeerId)
    (outcome : SendOutcome) :
  msgPromises rpc !! res_id r = None ->
  handleMessage (inbound_response r) peer outcome rpc = (Completed, rpc).
Proof.
  intros Hr. unfold handleMessage. simpl. by rewrite Hr.
Qed.

(** C8. A response whose id has no entry in [msgPromises] is dropped:
    [handleMessage] ends normally and the object is what it was, so the
    methods, the pending calls and their promises are untouched and nothing
    is sent. *)
Theorem unknown_response_is_dropped (rpc : RPC) (r : Response) (peer : PeerId)
    (outcome : SendOutcome) :
  msgPromises rpc !! res_id r = None ->
  handleMessage (inbound_response r) peer outcome rpc = (Completed, rpc).
Proof. apply handleMessage_unknown_response. Qed.

Lemma unknown_response_is_dropped_witness :
  let rpc := (request "peerA" "echo" None SendOk (constructor None None)).2 in
  let r := {| res_id := 9; res_result := None; res_error := None |} in
  handleMessage (inbound_response r) "peerB" SendOk rpc = (Completed, rpc).
Proof.
  intros rpc r. apply (unknown_response_is_dropped rpc r "peerB" SendOk). reflexivity.
Defined.

(** ** Timeouts *)

(** With a timeout that is not negative, registering a call queues one
    timeout, for the new promise and with the error [timeout] at code 0. *)
Lemma request_resume_schedules (messageId : Z) (rpc : RPC) :
  (0 <= options_timeout rpc)%Z ->
  let rpc' := (request_resume messageId SendOk rpc).2 in
  timers rpc' = timers rpc ++
    [{| timer_delay := options_timeout rpc;
        timer_reject := length (promises rpc);
        timer_error := {| code := 0; message := "timeout" |} |}]
  /\ msgPromises rpc' !! messageId = Some (length (promises rpc))
  /\ promises rpc' !! length (promises rpc) = Some Pending.
Proof.
  intros Ht. simpl. destruct (Z.ltb_spec (options_timeout rpc) 0); [lia|]. simpl.
  repeat split.
  - apply lookup_insert_eq.
  - by rewrite lookup_app_r, Nat.sub_diag.
Qed.

(** With a negative timeout no timeout is queued. *)
Lemma request_resume_no_watchdog (messageId : Z) (rpc : RPC) :
  (options_timeout rpc < 0)%Z ->
  let rpc' := (request_resume messageId SendOk rpc).2 in
  timers rpc' = timers rpc
  /\ msgPromises rpc' !! messageId = Some (length (promises rpc))
  /\ promises rpc' !! length (promises rpc) = Some Pending.
Proof.
  intros Ht. simpl. destruct (Z.ltb_spec (options_timeout rpc) 0); [|lia]. simpl.
  repeat split.
  - apply lookup_insert_eq.
  - by rewrite lookup_app_r, Nat.sub_diag.
Qed.

(** A timeout that runs out while its promise is pending rejects it. *)
Lemma timeout_fires_rejects (k : nat) (t : Timer) (rpc : RPC) :
  timers rpc !! k = Some t ->
  promises rpc !! timer_reject t = Some Pending ->
  promises (timeout_fires k rpc) !! timer_reject t = Some (Rejected (timer_error t)).
Proof.
  intros Hk Hp. unfold timeout_fires. rewrite Hk. simpl. by apply settle_pending.
Qed.

(** The callback of line 218 does not touch [msgPromises]. *)
Lemma timeout_fires_keeps_entries (k : nat) (rpc : RPC) :
  msgPromises (timeout_fires k rpc) = msgPromises rpc.
Proof.
  unfold timeout_fires. by destruct (timers rpc !! k).
Qed.

(** Without a timeout of its own and without a response, a pending promise
    stays pending: timeouts queued later are for later promises. *)
Lemma step_unwatched (ev : Event) (rpc : RPC) (p : Resolver) :
  unwatched p rpc -> carries_response ev = false -> unwatched p (step ev rpc).
Proof.
  intros [Hp Ht] Hev.
  destruct ev as [name m|peer name params|k o|peer name params o|msg peer o|k];
    simpl; try done.
  - destruct (suspended rpc !! k) as [messageId|]; [|done].
    destruct o as [|e]; simpl; [|done].
    pose proof (lookup_lt_Some _ _ _ Hp) as Hlt.
    destruct (options_timeout rpc <? 0)%Z; split; simpl;
      try (by rewrite lookup_app_l); try done.
    apply Forall_app. split; [done|]. constructor; [simpl; lia|constructor].
  - unfold handleMessage. simpl in Hev.
    destruct (RPCProtocol.request msg) as [rq|].
    + destruct (methods rpc !! req_name rq) as [m|].
      * destruct (m (req_params rq) peer) as [r|err]; [|destruct (caught err)];
          by destruct (req_id rq).
      * by destruct (req_id rq).
    + by destruct (RPCProtocol.response msg).
  - unfold timeout_fires. destruct (timers rpc !! k) as [t|] eqn:Hk; [|done].
    split; simpl.
    + rewrite settle_other; [done|]. intros ->.
      rewrite Forall_forall in Ht. apply (Ht t); [|done].
      by eapply list_elem_of_lookup_2.
    + rewrite Forall_forall in Ht |- *. intros t' Hin.
      apply Ht. by eapply list_elem_of_delete_inv.
Qed.

Lemma run_unwatched (evs : list Event) : forall (rpc : RPC) (p : Resolver),
  unwatched p rpc ->
  Forall (fun ev => carries_response ev = false) evs ->
  promises (run evs rpc) !! p = Some Pending.
Proof.
  induction evs as [|ev evs IH]; intros rpc p Hu Hevs; [apply Hu|].
  apply Forall_cons in Hevs as [Hev Hevs].
  simpl. apply IH; [|done]. by apply step_unwatched.
Qed.

(** So a call registered under a negative timeout waits until a response
    comes, however long: it is pending after any run without one. *)
Lemma no_watchdog_waits (messageId : Z) (rpc : RPC) (evs : list Event) :
  (options_timeout rpc < 0)%Z ->
  Forall (fun t => timer_reject t < length (promises rpc)) (timers rpc) ->
  Forall (fun ev => carries_response ev = false) evs ->
  promises (run evs (request_resume messageId SendOk rpc).2)
    !! length (promises rpc) = Some Pending.
Proof.
  intros Hneg Hold Hevs. apply run_unwatched; [|done].
  destruct (request_resume_no_watchdog messageId rpc Hneg) as (Ht & _ & Hp).
  split; [done|]. rewrite Ht.
  eapply Forall_impl; [done|]. simpl. intros t Hlt. lia.
Qed.

(** C3. A node with [timeout = 50] sends a request and never hears back.
    When the timeout runs out the call's promise is rejected with
    [{ code: 0, message: "timeout" }], and the id of the call is still in
    [msgPromises]. *)
Theorem timeout_rejects_but_keeps_entry :
  let rpc1 := (request "peerA" "echo" None SendOk (constructor None (Some 50%Z))).2 in
  let rpc2 := timeout_fires 0 rpc1 in
  msgPromises rpc1 !! 0%Z = Some 0
  /\ promises rpc1 !! 0 = Some Pending
  /\ timers rpc1 = [{| timer_delay := 50; timer_reject := 0;
                       timer_error := {| code := 0; message := "timeout" |} |}]
  /\ promises rpc2 !! 0 = Some (Rejected {| code := 0; message := "timeout" |})
  /\ timers rpc2 = []
  /\ msgPromises rpc2 !! 0%Z = Some 0.
Proof. vm_compute. repeat split. Qed.

(** ** One outcome for each call *)

(** C2. A node with [timeout = 50] sends a request, which gets id 0, and the
    timeout runs out before any response.  The timeout takes effect, the
    promise is rejected, but the entry of id 0 is not removed from
    [msgPromises]; so the response with id 0 that comes later is not
    without effect for that id: it finds the entry and removes it, and only
    the promise, settled once, is left as the timeout settled it. *)
Lemma late_response_after_timeout :
  let rpc1 := (request "peerA" "echo" None SendOk (constructor None (Some 50%Z))).2 in
  let rpc2 := timeout_fires 0 rpc1 in
  let late := inbound_response {| res_id := 0; res_result := None; res_error := None |} in
  let rpc3 := (handleMessage late "peerA" SendOk rpc2).2 in
  promises rpc2 !! 0 = Some (Rejected {| code := 0; message := "timeout" |})
  /\ msgPromises rpc2 !! 0%Z <> None
  /\ rpc3 <> rpc2
  /\ promises rpc3 !! 0 = Some (Rejected {| code := 0; message := "timeout" |})
  /\ msgPromises rpc3 !! 0%Z = None.
Proof.
  intros rpc1 rpc2 late rpc3. split; [reflexivity|]. split; [discriminate|].
  split; [|split; reflexivity].
  intros Heq. apply (f_equal (fun rpc => msgPromises rpc !! 0%Z)) in Heq.
  vm_compute in Heq. discriminate.
Qed.

(** What the code does keep of the rule of one outcome.  At most one of
    resolve, reject and timeout takes effect on the promise of a call: once
    the promise is settled, it stays as it is through whatever happens next,
    responses and timeouts included.  A response takes its id out of
    [msgPromises] before it settles the promise, so another response with
    that id finds no entry and changes nothing. *)
Theorem one_outcome_per_call (rpc : RPC) (p : Resolver) (s : Settlement)
    (evs : list Event) (r r' : Response) (peer peer' : PeerId)
    (outcome outcome' : SendOutcome) :
  promises rpc !! p = Some s -> s <> Pending ->
  res_id r' = res_id r ->
  promises (run evs rpc) !! p = Some s
  /\ let rpc' := (handleMessage (inbound_response r) peer outcome rpc).2 in
     msgPromises rpc' !! res_id r = None
     /\ handleMessage (inbound_response r') peer' outcome' rpc' = (Completed, rpc').
Proof.
  intros Hp Hs Hid. split; [by apply run_keeps_settled|].
  assert (msgPromises (handleMessage (inbound_response r) peer outcome rpc).2
            !! res_id r = None) as Hgone.
  { destruct (msgPromises rpc !! res_id r) as [resolver|] eqn:Hr.
    - rewrite (handleMessage_response _ _ _ _ _ Hr). simpl. apply lookup_delete_eq.
    - by rewrite handleMessage_unknown_response. }
  split; [done|].
  unfold handleMessage at 1. simpl. by rewrite Hid, Hgone.
Qed.

Lemma one_outcome_per_call_witness :
  let r0 := {| res_id := 0; res_result := Some [Byte.x01]; res_error := None |} in
  let rpc := run [CallRequest "peerA" "echo" None; SendSettles 0 SendOk;
                  CallRequest "peerB" "echo" None; SendSettles 0 SendOk;
                  Receives (inbound_response r0) "peerA" SendOk]
                 (constructor None (Some 50%Z)) in
  let late := {| res_id := 0; res_result := None;
                 res_error := Some {| code := 7; message := "late" |} |} in
  let r := {| res_id := 1; res_result := Some [Byte.x02]; res_error := None |} in
  let r' := {| res_id := 1; res_result := None;
               res_error := Some {| code := 7; message := "again" |} |} in
  (promises rpc !! 0 = Some (Fulfilled (Some [Byte.x01]))
   /\ msgPromises rpc !! 1%Z = Some 1 /\ promises rpc !! 1 = Some Pending)
  /\ promises (run [TimeoutFires 0; Receives (inbound_response late) "peerA" SendOk] rpc)
       !! 0 = Some (Fulfilled (Some [Byte.x01]))
  /\ msgPromises (handleMessage (inbound_response r) "peerB" SendOk rpc).2 !! 1%Z = None
  /\ handleMessage (inbound_response r') "peerB" SendOk
       (handleMessage (inbound_response r) "peerB" SendOk rpc).2
     = (Completed, (handleMessage (inbound_response r) "peerB" SendOk rpc).2).
Proof.
  intros r0 rpc late r r'. split; [repeat split|].
  apply (one_outcome_per_call rpc 0 (Fulfilled (Some [Byte.x01]))
           [TimeoutFires 0; Receives (inbound_response late) "peerA" SendOk]
           r r' "peerB" "peerB" SendOk SendOk).
  - reflexivity.
  - discriminate.
  - reflexivity.
Defined.


(** ** Serving requests *)

(** The three kinds of thrown value that the [catch] turns into an error
    object: an [RPCException] as it is, the message of an [Error] at code 0,
    the JSON text of another value at code 0. *)
Lemma caught_RPCException (e : RPCError) : caught (ThrownRPCException e) = Some e.
Proof. reflexivity. Qed.

Lemma caught_Error (m : string) :
  caught (ThrownError m) = Some {| code := 0; message := m |}.
Proof. reflexivity. Qed.

Lemma caught_value (text : string) :
  caught (ThrownValue (Some text)) = Some {| code := 0; message := text |}.
Proof. reflexivity. Qed.

(** For those, the reply to a request with an id is an error response with
    that id, the code and the message of the error object. *)
Lemma handleMessage_handler_throws (rpc : RPC) (name : string) (id : Z)
    (params : option Uint8Array) (peer : PeerId) (outcome : SendOutcome)
    (method : RPCMethod) (err : Thrown) (error : RPCError) :
  methods rpc !! name = Some method ->
  method params peer = MethodThrows err ->
  caught err = Some error ->
  handleMessage (inbound_request name (Some id) params) peer outcome rpc
  = return_send (Messages.createError id (RPCProtocol.message error)
                                         (RPCProtocol.code error)) peer outcome rpc.
Proof.
  intros Hm Hthrow Hc. unfold handleMessage, inbound_request.
  cbn [RPCProtocol.request req_name req_id req_params].
  by rewrite Hm, Hthrow, Hc.
Qed.

(** C5. The handler of ["explode"] throws a value that [JSON.stringify]
    cannot turn into text, and a request with id 7 calls it.  The one
    message sent back is a response with id 7, no result and no error: it is
    not the error response with message ["unknown error"] at code 0. *)
Theorem unstringifiable_throw_sends_success :
  let rpc := addMethod "explode" (explode (ThrownValue None)) (constructor None None) in
  let result := handleMessage (inbound_request "explode" (Some 7%Z) None)
                              "peerA" SendOk rpc in
  caught (ThrownValue None) = None
  /\ sent result.2
     = [("peerA",
         {| RPCProtocol.request := None;
            RPCProtocol.response :=
              Some {| res_id := 7; res_result := None; res_error := None |} |})]
  /\ sent result.2 <> [("peerA", Messages.createError 7 "unknown error" 0)].
Proof.
  intros rpc result. split; [reflexivity|]. split; [reflexivity|].
  vm_compute. discriminate.
Qed.

(** C6. An inbound request without an id gets no reply, whatever its name
    is and whatever the handler does: [handleMessage] ends normally and the
    object is what it was, so no message was sent.  [notify] ends normally
    whether its send succeeds or fails; the one thing it does is that send,
    of a request without an id. *)
Theorem notifications_are_silent (rpc : RPC) (name : string)
    (params : option Uint8Array) (peer : PeerId) (outcome : SendOutcome) :
  handleMessage (inbound_request name None params) peer outcome rpc = (Completed, rpc)
  /\ notify peer name params outcome rpc
     = (Completed, with_sent (sent rpc ++ [(peer, inbound_request name None params)]) rpc).
Proof.
  split.
  - unfold handleMessage, inbound_request.
    cbn [RPCProtocol.request req_name req_id req_params].
    destruct (methods rpc !! name) as [method|]; [|done].
    by destruct (method params peer) as [r|err]; [|destruct (caught err)].
  - by destruct outcome.
Qed.




(** ** Message ids *)

(** Only a call of [request] moves the counter of [genMsgId]. *)
Lemma step_genMsgId_id (ev : Event) (rpc : RPC) :
  genMsgId_id (step ev rpc)
  = if is_request ev then js_incr (genMsgId_id rpc) else genMsgId_id rpc.
Proof.
  destruct ev as [name m|peer name params|k o|peer name params o|msg peer o|k];
    simpl; try done.
  - destruct (suspended rpc !! k) as [messageId|]; [|done].
    destruct o as [|e]; simpl; [|done].
    by destruct (options_timeout rpc <? 0)%Z.
  - unfold handleMessage.
    destruct (RPCProtocol.request msg) as [rq|].
    + destruct (methods rpc !! req_name rq) as [m|].
      * destruct (m (req_params rq) peer) as [r|err]; [|destruct (caught err)];
          by destruct (req_id rq).
      * by destruct (req_id rq).
    + destruct (RPCProtocol.response msg) as [r|]; [|done].
      destruct (msgPromises rpc !! res_id r) as [resolver|]; [|done].
      by destruct (res_error r).
  - unfold timeout_fires. by destruct (timers rpc !! k).
Qed.

Lemma js_incr_exact (n : Z) : (n < MAX_EXACT)%Z -> js_incr n = (n + 1)%Z.
Proof.
  intros Hn. unfold js_incr. by destruct (Z.ltb_spec n MAX_EXACT); [|lia].
Qed.

(** While the counter is below 2^53, the ids given out in a run are the
    consecutive numbers from the counter on, one for each call of
    [request], and the counter ends past the last of them. *)
Lemma issued_in_range (evs : list Event) : forall rpc : RPC,
  (genMsgId_id rpc + Z.of_nat (requests evs) <= MAX_EXACT)%Z ->
  issued evs rpc = seqZ (genMsgId_id rpc) (Z.of_nat (requests evs))
  /\ genMsgId_id (run evs rpc) = (genMsgId_id rpc + Z.of_nat (requests evs))%Z.
Proof.
  induction evs as [|ev evs IH]; intros rpc Hmax; simpl in *.
  - split; [done|lia].
  - pose proof (step_genMsgId_id ev rpc) as Hid.
    destruct (is_request ev) eqn:Hev.
    + rewrite js_incr_exact in Hid by lia.
      destruct (IH (step ev rpc)) as [Hi Hr]; [lia|].
      rewrite Hi, Hr, Hid. split; [|lia].
      destruct ev; try discriminate. simpl.
      rewrite Nat2Z.inj_succ, (seqZ_cons (genMsgId_id rpc)) by lia.
      by rewrite Z.pred_succ.
    + destruct (IH (step ev rpc)) as [Hi Hr]; [lia|].
      rewrite Hi, Hr, Hid. split; [|lia].
      by destruct ev.
Qed.

Lemma seqZ_increasing (len : nat) : forall m : Z,
  StronglySorted Z.lt (seqZ m (Z.of_nat len)).
Proof.
  induction len as [|len IH]; intros m.
  - constructor.
  - rewrite Nat2Z.inj_succ, seqZ_cons by lia. rewrite Z.pred_succ.
    constructor; [apply IH|].
    apply Forall_forall. intros i Hi. apply elem_of_seqZ in Hi. lia.
Qed.

(** C9. In any run in which the counter stays within 2^53, the range in
    which a JavaScript number counts exactly, the ids given to the calls of
    [request] are one for each call, not negative, strictly increasing in the
    order of the calls, and pairwise distinct.  [notify] takes no id: it
    leaves the counter alone and the request it sends has no id. *)
Theorem request_ids_strictly_increase (evs : list Event) (rpc : RPC) :
  (0 <= genMsgId_id rpc)%Z ->
  (genMsgId_id rpc + Z.of_nat (requests evs) <= MAX_EXACT)%Z ->
  length (issued evs rpc) = requests evs
  /\ Forall (fun id => (0 <= id)%Z) (issued evs rpc)
  /\ StronglySorted Z.lt (issued evs rpc)
  /\ NoDup (issued evs rpc)
  /\ forall (peer : PeerId) (name : string) (params : option Uint8Array)
            (outcome : SendOutcome),
       let rpc' := (notify peer name params outcome rpc).2 in
       genMsgId_id rpc' = genMsgId_id rpc
       /\ sent rpc' = sent rpc ++
            [(peer, {| RPCProtocol.request :=
                         Some {| req_name := name; req_id := None;
                                 req_params := params |};
                       RPCProtocol.response := None |})].
Proof.
  intros H0 Hmax. destruct (issued_in_range evs rpc Hmax) as [-> _].
  split; [by rewrite length_seqZ, Nat2Z.id|].
  split; [apply Forall_seqZ; intros; lia|].
  split; [apply seqZ_increasing|].
  split; [apply NoDup_seqZ|].
  done.
Qed.

Lemma request_ids_strictly_increase_witness :
  let evs := [CallRequest "peerA" "echo" None;
              CallNotify "peerA" "log" None (SendError "unreachable");
              CallRequest "peerB" "echo" None;
              SendSettles 0 SendOk;
              CallRequest "peerA" "add" (Some [Byte.x02; Byte.x03])] in
  issued evs (constructor None None) = [0; 1; 2]%Z
  /\ StronglySorted Z.lt (issued evs (constructor None None)).
Proof.
  intros evs. split; [reflexivity|].
  apply (request_ids_strictly_increase evs (constructor None None)).
  - simpl. lia.
  - vm_compute. discriminate.
Defined.

(** C10. [request] takes its id before it sends, and the message it sends
    carries that id; when the send fails the id is spent all the same: the
    counter has moved on by one and [request] fails with code -32000.  So,
    while the counter is below 2^53, after any run, whatever sends failed
    in it, the next id is larger than every id given out in the run.  The
    ids of the requests that were sent need not be consecutive: of three
    requests whose second send fails, the ones registered are 0 and 2. *)
Theorem failed_request_spends_its_id (evs : list Event) (rpc : RPC)
    (peer : PeerId) (name : string) (params : option Uint8Array)
    (error_message : string) :
  (genMsgId_id rpc + Z.of_nat (requests evs) < MAX_EXACT)%Z ->
  let rpc1 := run evs rpc in
  let failed := request peer name params (SendError error_message) rpc1 in
  failed.1 = inl {| code := (-32000)%Z; message := error_message |}
  /\ sent failed.2
     = sent rpc1 ++ [(peer, Messages.createRequest name (genMsgId_id rpc1) params)]
  /\ genMsgId_id failed.2 = (genMsgId_id rpc1 + 1)%Z
  /\ Forall (fun id => (id < (genMsgId rpc1).1)%Z) (issued evs rpc)
  /\ Forall (fun id => (id < (genMsgId failed.2).1)%Z)
            (issued evs rpc ++ [(request_begin peer name params rpc1).1])
  /\ exists evs0 : list Event,
       let rpc0 := run evs0 (constructor None None) in
       issued evs0 (constructor None None) = [0; 1; 2]%Z
       /\ msgPromises rpc0 !! 0%Z = Some 0
       /\ msgPromises rpc0 !! 1%Z = None
       /\ msgPromises rpc0 !! 2%Z = Some 1.
Proof.
  intros Hmax rpc1 failed.
  destruct (issued_in_range evs rpc) as [Hi Hr]; [lia|].
  fold rpc1 in Hr.
  assert (genMsgId_id failed.2 = (genMsgId_id rpc1 + 1)%Z) as Hnext.
  { subst failed. simpl. apply js_incr_exact. lia. }
  split; [done|]. split; [done|]. split; [done|].
  change (genMsgId rpc1).1 with (genMsgId_id rpc1).
  change (genMsgId failed.2).1 with (genMsgId_id failed.2).
  change (request_begin peer name params rpc1).1 with (genMsgId_id rpc1).
  rewrite Hnext, Hi, Hr.
  split; [|split].
  - apply Forall_seqZ. intros id Hid. lia.
  - apply Forall_app. split.
    + apply Forall_seqZ. intros id Hid. lia.
    + constructor; [|constructor]. lia.
  - exists [CallRequest "peerA" "echo" None; SendSettles 0 SendOk;
            CallRequest "peerB" "echo" None; SendSettles 0 (SendError "unreachable");
            CallRequest "peerA" "echo" None; SendSettles 0 SendOk].
    vm_compute. repeat split.
Qed.

Lemma failed_request_spends_its_id_witness :
  let evs := [CallRequest "peerA" "echo" None; SendSettles 0 SendOk] in
  let rpc1 := run evs (constructor None None) in
  let failed := request "peerB" "echo" None (SendError "unreachable") rpc1 in
  genMsgId_id rpc1 = 1%Z /\ genMsgId_id failed.2 = (genMsgId_id rpc1 + 1)%Z.
Proof.
  intros evs rpc1 failed. split; [reflexivity|].
  apply (failed_request_spends_its_id evs (constructor None None)
           "peerB" "echo" None "unreachable").
  vm_compute. reflexivity.
Defined.

(** ** Where an id can be *)

Lemma js_incr_le (n : Z) : (n <= js_incr n)%Z.
Proof. unfold js_incr. destruct (n <? MAX_EXACT)%Z; lia. Qed.

Lemma NoDup_delete_lookup (l : list Z) (k : nat) (id : Z) :
  NoDup l -> l !! k = Some id -> id ∉ delete k l.
Proof.
  intros Hnd Hk. rewrite delete_take_drop.
  rewrite <- (take_drop_middle l k id Hk) in Hnd.
  apply NoDup_app in Hnd as (_ & Hout & Hnd).
  apply NoDup_cons in Hnd as [Hid _].
  apply not_elem_of_app. split; [|done].
  intros Hin. apply (Hout id Hin). by left.
Qed.

Lemma constructor_tracked (protocol : option string) (timeout : option Z) :
  tracked (constructor protocol timeout).
Proof.
  split; simpl.
  - constructor.
  - constructor.
  - intros id r Hid. by rewrite lookup_empty in Hid.
  - intros id r Hid. by rewrite lookup_empty in Hid.
Qed.

(** What the second half of [request] leaves in [msgPromises]. *)
Lemma request_resume_msgPromises (messageId : Z) (outcome : SendOutcome) (rpc : RPC) :
  msgPromises (request_resume messageId outcome rpc).2
  = match outcome with
    | SendOk => <[messageId := length (promises rpc)]> (msgPromises rpc)
    | SendError _ => msgPromises rpc
    end.
Proof.
  destruct outcome; simpl; [|done]. by destruct (options_timeout rpc <? 0)%Z.
Qed.

Lemma request_resume_keeps (messageId : Z) (outcome : SendOutcome) (rpc : RPC) :
  genMsgId_id (request_resume messageId outcome rpc).2 = genMsgId_id rpc
  /\ suspended (request_resume messageId outcome rpc).2 = suspended rpc.
Proof.
  destruct outcome; simpl; [|done]. by destruct (options_timeout rpc <? 0)%Z.
Qed.

(** What [handleMessage] leaves in [msgPromises]: what was there, or that
    without the id of the response. *)
Lemma handleMessage_msgPromises (message : RPCMessage) (peer : PeerId)
    (outcome : SendOutcome) (rpc : RPC) :
  suspended (handleMessage message peer outcome rpc).2 = suspended rpc
  /\ (msgPromises (handleMessage message peer outcome rpc).2 = msgPromises rpc
      \/ exists id : Z,
           msgPromises (handleMessage message peer outcome rpc).2
           = delete id (msgPromises rpc)).
Proof.
  unfold handleMessage.
  destruct (RPCProtocol.request message) as [rq|].
  - destruct (methods rpc !! req_name rq) as [m|].
    + destruct (m (req_params rq) peer) as [r|err]; [|destruct (caught err)];
        destruct (req_id rq); simpl; auto.
    + destruct (req_id rq); simpl; auto.
  - destruct (RPCProtocol.response message) as [r|]; [|by auto].
    destruct (msgPromises rpc !! res_id r) as [resolver|]; [|by auto].
    destruct (res_error r); simpl; eauto.
Qed.

Lemma step_tracked (ev : Event) (rpc : RPC) :
  tracked rpc ->
  (is_request ev = true -> (genMsgId_id rpc < MAX_EXACT)%Z) ->
  tracked (step ev rpc).
Proof.
  intros [Hbelow Hnd Hreg Hres] Hmax.
  destruct ev as [name m|peer name params|k o|peer name params o|msg peer o|k].
  - by split.
  - specialize (Hmax eq_refl). split; simpl; rewrite ?js_incr_exact by done.
    + apply Forall_app. split; [|by constructor; [lia|]].
      eapply Forall_impl; [done|]. simpl. intros; lia.
    + apply NoDup_app. split; [done|]. split; [|apply NoDup_singleton].
      intros id Hin Hnew. apply list_elem_of_singleton in Hnew as ->.
      rewrite Forall_forall in Hbelow. specialize (Hbelow _ Hin). simpl in Hbelow. lia.
    + intros id r Hid. specialize (Hreg id r Hid). lia.
    + intros id r Hid. apply not_elem_of_app. split; [by eapply Hres|].
      intros Hnew. apply list_elem_of_singleton in Hnew as ->.
      specialize (Hreg _ r Hid). lia.
  - simpl. destruct (suspended rpc !! k) as [messageId|] eqn:Hk; [|by split].
    set (rpc1 := with_suspended (delete k (suspended rpc)) rpc).
    destruct (request_resume_keeps messageId o rpc1) as [Hc Hs].
    pose proof (request_resume_msgPromises messageId o rpc1) as Hm.
    assert (forall id : Z, id ∈ delete k (suspended rpc) -> id ∈ suspended rpc) as Hsub.
    { intros id. apply list_elem_of_delete_inv. }
    split; rewrite ?Hc, ?Hs; simpl.
    + rewrite Forall_forall in Hbelow |- *. intros id Hin. by apply Hbelow, Hsub.
    + eapply sublist_NoDup; [done|apply sublist_delete].
    + intros id r. rewrite Hm. destruct o; simpl; [|by apply Hreg].
      intros [[<- _]|[_ Hid]]%lookup_insert_Some; [|by eapply Hreg].
      rewrite Forall_forall in Hbelow. apply Hbelow.
      by eapply list_elem_of_lookup_2.
    + intros id r. rewrite Hm. destruct o; simpl.
      * intros [[<- _]|[_ Hid]]%lookup_insert_Some.
        -- by apply NoDup_delete_lookup.
        -- intros Hin. by eapply Hres, Hsub.
      * intros Hid Hin. by eapply Hres, Hsub.
  - by split.
  - simpl. destruct (handleMessage_msgPromises msg peer o rpc) as [Hs Hm].
    assert (forall (id : Z) (r : Resolver),
              msgPromises (handleMessage msg peer o rpc).2 !! id = Some r ->
              msgPromises rpc !! id = Some r) as Hin.
    { intros id r. destruct Hm as [->|[id' ->]]; [done|].
      by intros [_ ?]%lookup_delete_Some. }
    assert (genMsgId_id (handleMessage msg peer o rpc).2 = genMsgId_id rpc) as Hc.
    { apply (step_genMsgId_id (Receives msg peer o)). }
    split; rewrite ?Hc, ?Hs; try done.
    + intros id r Hid. by eapply Hreg, Hin.
    + intros id r Hid. by eapply Hres, Hin.
  - simpl. unfold timeout_fires. destruct (timers rpc !! k); by split.
Qed.

Lemma run_tracked (evs : list Event) : forall rpc : RPC,
  tracked rpc ->
  (genMsgId_id rpc + Z.of_nat (requests evs) <= MAX_EXACT)%Z ->
  tracked (run evs rpc).
Proof.
  induction evs as [|ev evs IH]; intros rpc Ht Hmax; [done|].
  simpl in *. apply IH.
  - apply step_tracked; [done|]. intros Hev. rewrite Hev in Hmax. lia.
  - rewrite step_genMsgId_id. destruct (is_request ev); [|done].
    rewrite js_incr_exact; lia.
Qed.

(** A spent id stays spent: nothing registers it again. *)
Lemma step_spent (ev : Event) (rpc : RPC) (id : Z) :
  spent id rpc -> spent id (step ev rpc).
Proof.
  intros (Hlt & Hsus & Hnone).
  destruct ev as [name m|peer name params|k o|peer name params o|msg peer o|k].
  - done.
  - split; [|split]; simpl; [|apply not_elem_of_app; split|]; try done.
    + pose proof (js_incr_le (genMsgId_id rpc)). lia.
    + intros Hnew. apply list_elem_of_singleton in Hnew. lia.
  - simpl. destruct (suspended rpc !! k) as [messageId|] eqn:Hk; [|done].
    set (rpc1 := with_suspended (delete k (suspended rpc)) rpc).
    destruct (request_resume_keeps messageId o rpc1) as [Hc Hs].
    pose proof (request_resume_msgPromises messageId o rpc1) as Hm.
    unfold spent. rewrite Hc, Hs, Hm. simpl.
    split; [done|]. split.
    + intros Hin. by apply list_elem_of_delete_inv in Hin.
    + destruct o; [|done]. apply lookup_insert_None. split; [done|].
      intros ->. apply Hsus. by eapply list_elem_of_lookup_2.
  - done.
  - simpl. destruct (handleMessage_msgPromises msg peer o rpc) as [Hs Hm].
    assert (genMsgId_id (handleMessage msg peer o rpc).2 = genMsgId_id rpc) as Hc.
    { apply (step_genMsgId_id (Receives msg peer o)). }
    unfold spent. rewrite Hs, Hc.
    split; [done|]. split; [done|].
    destruct Hm as [->|[id' ->]]; [done|].
    apply lookup_delete_None. by right.
  - simpl. unfold timeout_fires. by destruct (timers rpc !! k).
Qed.

Lemma run_spent (evs : list Event) : forall (rpc : RPC) (id : Z),
  spent id rpc -> spent id (run evs rpc).
Proof.
  induction evs as [|ev evs IH]; intros rpc id Hs; [done|].
  simpl. by apply IH, step_spent.
Qed.

(** ** Requests whose send fails *)

(** C4. A node has run for a while when [request] is called; the call is
    given [messageId] and is suspended at its send; other code runs; then
    the send fails.  [request] fails with [{ code: -32000, message }], the
    message being that of the transport's error.  Nothing is registered:
    [msgPromises], the promises and the timeouts are what they were just
    before the failure, [messageId] had no entry while the send was in
    flight, and it has none after any further run.  The same holds for a
    call that nothing interrupts. *)
Theorem request_send_failure (evs evs2 evs3 : list Event)
    (protocol : option string) (timeout : option Z)
    (peer : PeerId) (name : string) (params : option Uint8Array)
    (error_message : string) (k : nat) :
  let rpc := run evs (constructor protocol timeout) in
  let messageId := (request_begin peer name params rpc).1 in
  let rpc2 := run evs2 (step (CallRequest peer name params) rpc) in
  let rpc3 := step (SendSettles k (SendError error_message)) rpc2 in
  let failure := {| code := (-32000)%Z; message := error_message |} in
  (Z.of_nat (requests evs + 1 + requests evs2) <= MAX_EXACT)%Z ->
  suspended rpc2 !! k = Some messageId ->
  request_resume messageId (SendError error_message)
                 (with_suspended (delete k (suspended rpc2)) rpc2)
  = (inl failure, with_suspended (delete k (suspended rpc2)) rpc2)
  /\ msgPromises rpc3 = msgPromises rpc2
  /\ promises rpc3 = promises rpc2
  /\ timers rpc3 = timers rpc2
  /\ msgPromises rpc2 !! messageId = None
  /\ msgPromises (run evs3 rpc3) !! messageId = None
  /\ (request peer name params (SendError error_message) rpc).1 = inl failure
  /\ msgPromises (request peer name params (SendError error_message) rpc).2
     = msgPromises rpc.
Proof.
  intros rpc messageId rpc2 rpc3 failure Hmax Hk.
  destruct (issued_in_range evs (constructor protocol timeout)) as [_ Hc];
    [simpl; lia|].
  fold rpc in Hc. simpl in Hc.
  assert (tracked rpc) as Ht.
  { apply run_tracked; [apply constructor_tracked|simpl; lia]. }
  assert (tracked rpc2) as Ht2.
  { apply run_tracked.
    - apply step_tracked; [done|]. intros _. lia.
    - rewrite step_genMsgId_id. simpl. rewrite js_incr_exact; lia. }
  assert (msgPromises rpc2 !! messageId = None) as Hnone.
  { destruct (msgPromises rpc2 !! messageId) as [r|] eqn:Hr; [|done].
    exfalso. apply (registered_resumed _ Ht2 _ _ Hr).
    by eapply list_elem_of_lookup_2. }
  assert (rpc3 = with_suspended (delete k (suspended rpc2)) rpc2) as Hrpc3.
  { subst rpc3. simpl. by rewrite Hk. }
  split; [done|]. rewrite Hrpc3. do 4 (split; [done|]). split; [|done].
  rewrite <- Hrpc3. apply run_spent. rewrite Hrpc3. split; [|split]; simpl.
  - pose proof (suspended_below _ Ht2) as Hb. rewrite Forall_forall in Hb.
    apply Hb. by eapply list_elem_of_lookup_2.
  - apply NoDup_delete_lookup; [apply Ht2|done].
  - done.
Qed.

Lemma request_send_failure_witness :
  let rpc := run [CallRequest "peerA" "echo" None; SendSettles 0 SendOk]
                 (constructor None None) in
  let rpc2 := run [CallNotify "peerA" "log" None SendOk]
                  (step (CallRequest "peerB" "echo" None) rpc) in
  let rpc3 := step (SendSettles 0 (SendError "unreachable")) rpc2 in
  (request_begin "peerB" "echo" None rpc).1 = 1%Z
  /\ suspended rpc2 !! 0 = Some 1%Z
  /\ msgPromises rpc3 = msgPromises rpc2
  /\ msgPromises (run [CallRequest "peerB" "echo" None; SendSettles 0 SendOk] rpc3)
       !! 1%Z = None.
Proof.
  intros rpc rpc2 rpc3. split; [reflexivity|]. split; [reflexivity|].
  pose proof (request_send_failure
                [CallRequest "peerA" "echo" None; SendSettles 0 SendOk]
                [CallNotify "peerA" "log" None SendOk]
                [CallRequest "peerB" "echo" None; SendSettles 0 SendOk]
                None None "peerB" "echo" None "unreachable" 0) as H.
  destruct H as (_ & Hm & _ & _ & _ & Hnever & _).
  - vm_compute. discriminate.
  - reflexivity.
  - split; [exact Hm|exact Hnever].
Defined.

(** * More of the class *)

(** ** Dispatch to a handler *)

(** The reply that lines 263-269 send for a request with an id, from what
    the handler did. *)
Lemma handleMessage_request (rpc : RPC) (name : string) (id : Z)
    (params : option Uint8Array) (peer : PeerId) (outcome : SendOutcome)
    (method : RPCMethod) (resp : option Response) :
  methods rpc !! name = Some method ->
  handleMessage
    {| RPCProtocol.request :=
         Some {| req_name := name; req_id := Some id; req_params := params |};
       RPCProtocol.response := resp |} peer outcome rpc
  = return_send
      match method params peer with
      | MethodReturns result => Messages.createResponse id result
      | MethodThrows err =>
          match caught err with
          | Some error => Messages.createError id (RPCProtocol.message error)
                                                  (RPCProtocol.code error)
          | None => Messages.createResponse id None
          end
      end peer outcome rpc.
Proof.
  intros Hm. unfold handleMessage.
  cbn [RPCProtocol.request req_name req_id req_params]. rewrite Hm.
  by destruct (method params peer) as [r|err]; [|destruct (caught err)].
Qed.

(** X1. A request with an id whose handler returns is answered with one
    message to the sender: a response with the request's id, the handler's
    result (none when the handler returned nothing) and no error.  Nothing
    else in the object changes, and [handleMessage] ends as that send ends. *)
Theorem handler_result_is_replied (rpc : RPC) (name : string) (id : Z)
    (params result : option Uint8Array) (peer : PeerId) (outcome : SendOutcome)
    (method : RPCMethod) :
  methods rpc !! name = Some method ->
  method params peer = MethodReturns result ->
  handleMessage (inbound_request name (Some id) params) peer outcome rpc
  = (match outcome with SendOk => Completed | SendError e => Failed e end,
     with_sent
       (sent rpc ++
          [(peer, inbound_response
                    {| res_id := id; res_result := result; res_error := None |})])
       rpc).
Proof.
  intros Hm Hr. unfold inbound_request.
  rewrite (handleMessage_request _ _ _ _ _ _ _ _ Hm), Hr. reflexivity.
Qed.

Lemma handler_result_is_replied_witness :
  handleMessage (inbound_request "echo" (Some 4%Z) (Some [Byte.x2a])) "peerB" SendOk
                (addMethod "echo" echo (constructor None None))
  = (Completed,
     with_sent
       [("peerB", inbound_response {| res_id := 4; res_result := Some [Byte.x2a];
                                      res_error := None |})]
       (addMethod "echo" echo (constructor None None))).
Proof.
  apply (handler_result_is_replied (addMethod "echo" echo (constructor None None))
           "echo" 4 (Some [Byte.x2a]) (Some [Byte.x2a]) "peerB" SendOk echo);
    reflexivity.
Defined.

(** X2. Registering a handler under [name] changes nothing for the messages
    that are not requests for [name]: [handleMessage] ends the same way and
    has the same effects, before or after the registration. *)
Theorem addMethod_leaves_other_messages (rpc : RPC) (name : string)
    (method : RPCMethod) (message : RPCMessage) (peer : PeerId)
    (outcome : SendOutcome) :
  (forall rq : Request,
     RPCProtocol.request message = Some rq -> req_name rq <> name) ->
  handleMessage message peer outcome (addMethod name method rpc)
  = ((handleMessage message peer outcome rpc).1,
     addMethod name method (handleMessage message peer outcome rpc).2).
Proof.
  intros Hname. unfold handleMessage.
  destruct (RPCProtocol.request message) as [rq|].
  - specialize (Hname rq eq_refl).
    cbn [methods addMethod with_methods].
    rewrite lookup_insert_ne by done.
    destruct (methods rpc !! req_name rq) as [m|].
    + destruct (m (req_params rq) peer) as [r|err]; [|destruct (caught err)];
        by destruct (req_id rq).
    + by destruct (req_id rq).
  - destruct (RPCProtocol.response message) as [r|]; [|done].
    cbn [msgPromises addMethod with_methods].
    destruct (msgPromises rpc !! res_id r) as [resolver|]; [|done].
    by destruct (res_error r).
Qed.

Lemma addMethod_leaves_other_messages_witness :
  let rpc := addMethod "echo" echo (constructor None None) in
  handleMessage (inbound_request "echo" (Some 1%Z) None) "peerA" SendOk
                (addMethod "explode" (explode (ThrownError "boom")) rpc)
  = ((handleMessage (inbound_request "echo" (Some 1%Z) None) "peerA" SendOk rpc).1,
     addMethod "explode" (explode (ThrownError "boom"))
       (handleMessage (inbound_request "echo" (Some 1%Z) None) "peerA" SendOk rpc).2).
Proof.
  intros rpc.
  apply (addMethod_leaves_other_messages rpc "explode" (explode (ThrownError "boom"))
           (inbound_request "echo" (Some 1%Z) None) "peerA" SendOk).
  intros rq Hrq. injection Hrq as <-. discriminate.
Defined.

(** X3. A message that holds a request is handled as a request, whatever
    else it holds: a response in the same message is not looked at, and no
    promise and no entry of [msgPromises] changes.  A message that holds
    neither is dropped. *)
Theorem request_part_decides (rpc : RPC) (rq : Request) (resp : option Response)
    (peer : PeerId) (outcome : SendOutcome) :
  let both := {| RPCProtocol.request := Some rq; RPCProtocol.response := resp |} in
  let only := {| RPCProtocol.request := Some rq; RPCProtocol.response := None |} in
  let empty := {| RPCProtocol.request := None; RPCProtocol.response := None |} in
  handleMessage both peer outcome rpc = handleMessage only peer outcome rpc
  /\ promises (handleMessage both peer outcome rpc).2 = promises rpc
  /\ msgPromises (handleMessage both peer outcome rpc).2 = msgPromises rpc
  /\ handleMessage empty peer outcome rpc = (Completed, rpc).
Proof.
  intros both only empty. split; [done|]. split; [|split; [|done]].
  - unfold handleMessage. simpl.
    destruct (methods rpc !! req_name rq) as [m|].
    + destruct (m (req_params rq) peer) as [r|err]; [|destruct (caught err)];
        by destruct (req_id rq).
    + by destruct (req_id rq).
  - unfold handleMessage. simpl.
    destruct (methods rpc !! req_name rq) as [m|].
    + destruct (m (req_params rq) peer) as [r|err]; [|destruct (caught err)];
        by destruct (req_id rq).
    + by destruct (req_id rq).
Qed.

(** ** What [handleMessage] leaves alone *)

(** The three things [handleMessage] can do to the object. *)
Lemma handleMessage_effect (message : RPCMessage) (peer : PeerId)
    (outcome : SendOutcome) (rpc : RPC) :
  (handleMessage message peer outcome rpc).2 = rpc
  \/ (exists (rq : Request) (id : Z) (reply : Response),
        RPCProtocol.request message = Some rq /\ req_id rq = Some id
        /\ res_id reply = id
        /\ (handleMessage message peer outcome rpc).2
           = handler_send (inbound_response reply) peer rpc)
  \/ (exists (r : Response) (resolver : Resolver) (s : Settlement),
        RPCProtocol.request message = None
        /\ RPCProtocol.response message = Some r
        /\ msgPromises rpc !! res_id r = Some resolver
        /\ (handleMessage message peer outcome rpc).2
           = with_promises (settle resolver s (promises rpc))
               (with_msgPromises (delete (res_id r) (msgPromises rpc)) rpc)).
Proof.
  unfold handleMessage.
  destruct (RPCProtocol.request message) as [rq|].
  - destruct (req_id rq) as [id|] eqn:Hid.
    + right. left.
      destruct (methods rpc !! req_name rq) as [m|].
      * destruct (m (req_params rq) peer) as [r|err]; [|destruct (caught err)];
          eexists rq, id, _; (split; [done|]); (split; [done|]);
          (split; [|reflexivity]); reflexivity.
      * eexists rq, id, _. split; [done|]. split; [done|].
        split; [|reflexivity]. reflexivity.
    + left. destruct (methods rpc !! req_name rq) as [m|]; [|done].
      by destruct (m (req_params rq) peer) as [r|err]; [|destruct (caught err)].
  - destruct (RPCProtocol.response message) as [r|]; [|by left].
    destruct (msgPromises rpc !! res_id r) as [resolver|] eqn:Hr; [|by left].
    right. right. destruct (res_error r); eexists r, resolver, _; eauto.
Qed.

Lemma handleMessage_keeps (message : RPCMessage) (peer : PeerId)
    (outcome : SendOutcome) (rpc : RPC) :
  methods (handleMessage message peer outcome rpc).2 = methods rpc
  /\ options_timeout (handleMessage message peer outcome rpc).2 = options_timeout rpc
  /\ timers (handleMessage message peer outcome rpc).2 = timers rpc.
Proof.
  by destruct (handleMessage_effect message peer outcome rpc)
    as [->|[(rq & id & reply & _ & _ & _ & ->)
           |(r & resolver & s & _ & _ & _ & ->)]].
Qed.

(** X4. Whatever the message, [handleMessage] registers no handler and no
    call, takes no id, queues and cancels no timeout, and makes no promise:
    the entries of [msgPromises] after it were there before, with the same
    promise.  It sends at most one message, and when it sends one, that is a
    response, to the sender of a request that has an id, with that id. *)
Theorem handleMessage_frame (message : RPCMessage) (peer : PeerId)
    (outcome : SendOutcome) (rpc : RPC) :
  let rpc' := (handleMessage message peer outcome rpc).2 in
  methods rpc' = methods rpc
  /\ genMsgId_id rpc' = genMsgId_id rpc
  /\ timers rpc' = timers rpc
  /\ suspended rpc' = suspended rpc
  /\ options_timeout rpc' = options_timeout rpc
  /\ length (promises rpc') = length (promises rpc)
  /\ msgPromises rpc' ⊆ msgPromises rpc
  /\ (sent rpc' = sent rpc
      \/ exists (rq : Request) (id : Z) (reply : Response),
           RPCProtocol.request message = Some rq /\ req_id rq = Some id
           /\ res_id reply = id
           /\ sent rpc' = sent rpc ++ [(peer, inbound_response reply)]).
Proof.
  intros rpc'. subst rpc'.
  destruct (handleMessage_effect message peer outcome rpc)
    as [->|[(rq & id & reply & Hrq & Hid & Hres & ->)
           |(r & resolver & s & _ & _ & _ & ->)]]; simpl.
  - repeat split; auto.
  - repeat split; try done. right. by exists rq, id, reply.
  - repeat split; auto using settle_length. apply delete_subseteq.
Qed.

(** ** What a run keeps *)

Lemma step_methods (ev : Event) (rpc : RPC) :
  methods (step ev rpc)
  = match ev with
    | CallAddMethod name method => <[name := method]> (methods rpc)
    | _ => methods rpc
    end.
Proof.
  destruct ev as [name m|peer name params|k o|peer name params o|msg peer o|k];
    simpl; try done.
  - destruct (suspended rpc !! k) as [messageId|]; [|done].
    destruct o as [|e]; simpl; [|done].
    by destruct (options_timeout rpc <? 0)%Z.
  - apply (handleMessage_keeps msg peer o rpc).
  - unfold timeout_fires. by destruct (timers rpc !! k).
Qed.

Lemma step_options_timeout (ev : Event) (rpc : RPC) :
  options_timeout (step ev rpc) = options_timeout rpc.
Proof.
  destruct ev as [name m|peer name params|k o|peer name params o|msg peer o|k];
    simpl; try done.
  - destruct (suspended rpc !! k) as [messageId|]; [|done].
    destruct o as [|e]; simpl; [|done].
    by destruct (options_timeout rpc <? 0)%Z.
  - apply (handleMessage_keeps msg peer o rpc).
  - unfold timeout_fires. by destruct (timers rpc !! k).
Qed.

Lemma run_options_timeout (evs : list Event) : forall rpc : RPC,
  options_timeout (run evs rpc) = options_timeout rpc.
Proof.
  induction evs as [|ev evs IH]; intros rpc; [done|].
  simpl. by rewrite IH, step_options_timeout.
Qed.

(** X5. Nothing removes a handler: a name that is registered stays
    registered through any run, and it keeps its handler through a run in
    which [addMethod] is not called for that name. *)
Theorem registered_methods_stay (evs : list Event) (rpc : RPC) (name : string)
    (method : RPCMethod) :
  methods rpc !! name = Some method ->
  is_Some (methods (run evs rpc) !! name)
  /\ (Forall (fun ev => match ev with
                        | CallAddMethod name' _ => name' <> name
                        | _ => True
                        end) evs ->
      methods (run evs rpc) !! name = Some method).
Proof.
  revert rpc method. induction evs as [|ev evs IH]; intros rpc method Hm.
  - split; [by eexists|done].
  - simpl. pose proof (step_methods ev rpc) as Hstep. split.
    + destruct ev as [name' m| | | | | ];
        try (apply (IH _ method); by rewrite Hstep).
      destruct (decide (name' = name)) as [->|Hne].
      * apply (IH _ m). rewrite Hstep. apply lookup_insert_eq.
      * apply (IH _ method). rewrite Hstep. by rewrite lookup_insert_ne.
    + intros [Hev Hevs]%Forall_cons. apply IH; [|done].
      rewrite Hstep. destruct ev; try done. by rewrite lookup_insert_ne.
Qed.

Lemma registered_methods_stay_witness :
  let rpc := addMethod "echo" echo (constructor None None) in
  let evs := [CallRequest "peerA" "add" None;
              CallAddMethod "explode" (explode (ThrownError "boom"));
              Receives (inbound_request "echo" (Some 0%Z) None) "peerB" SendOk;
              SendSettles 0 SendOk; TimeoutFires 0] in
  is_Some (methods (run evs rpc) !! "echo").
Proof.
  intros rpc evs. apply (registered_methods_stay evs rpc "echo" echo). reflexivity.
Defined.

(** ** Promises, entries and timeouts hang together *)

Lemma constructor_wellformed (protocol : option string) (timeout : option Z) :
  wellformed (constructor protocol timeout).
Proof.
  split; simpl; try by constructor.
  - intros id r Hid. by rewrite lookup_empty in Hid.
  - intros id id' r Hid. by rewrite lookup_empty in Hid.
Qed.

Lemma step_wellformed (ev : Event) (rpc : RPC) :
  wellformed rpc -> wellformed (step ev rpc).
Proof.
  intros [Hex Hdis Htex Htt].
  destruct ev as [name m|peer name params|k o|peer name params o|msg peer o|k].
  - by split.
  - by split.
  - simpl. destruct (suspended rpc !! k) as [messageId|]; [|by split].
    destruct o as [|e]; [|by split].
    assert (forall (id : Z) (r : Resolver),
              <[messageId := length (promises rpc)]> (msgPromises rpc) !! id = Some r ->
              r < length (promises rpc ++ [Pending])) as Hex'.
    { intros id r [[_ <-]|[_ Hid]]%lookup_insert_Some; rewrite length_app; simpl.
      - lia.
      - specialize (Hex _ _ Hid). lia. }
    assert (forall (id id' : Z) (r : Resolver),
              <[messageId := length (promises rpc)]> (msgPromises rpc) !! id = Some r ->
              <[messageId := length (promises rpc)]> (msgPromises rpc) !! id' = Some r ->
              id = id') as Hdis'.
    { intros id id' r [[<- <-]|[_ Hid]]%lookup_insert_Some
                      [[<- Hr]|[_ Hid']]%lookup_insert_Some; try done.
      - specialize (Hex _ _ Hid'). lia.
      - specialize (Hex _ _ Hid). lia.
      - by eapply Hdis. }
    assert (Forall (fun t => timer_reject t < length (promises rpc ++ [Pending]))
                   (timers rpc)) as Htex'.
    { eapply Forall_impl; [exact Htex|]. simpl. intros t Ht. rewrite length_app. lia. }
    simpl. destruct (Z.ltb_spec (options_timeout rpc) 0); split; simpl; try done.
    + apply Forall_app. split; [done|]. constructor; [|constructor].
      simpl. rewrite length_app. simpl. lia.
    + apply Forall_app. split; [done|]. by constructor; [|constructor].
  - by split.
  - simpl.
    destruct (handleMessage_effect msg peer o rpc)
      as [->|[(rq & id & reply & _ & _ & _ & ->)
             |(r & resolver & s & _ & _ & _ & ->)]]; [by split|by split|].
    split; simpl; rewrite ?settle_length; try done.
    + intros id r' [_ Hid]%lookup_delete_Some. by eapply Hex.
    + intros id id' r' [_ Hid]%lookup_delete_Some [_ Hid']%lookup_delete_Some.
      by eapply Hdis.
  - simpl. unfold timeout_fires. destruct (timers rpc !! k) as [t|]; [|by split].
    split; simpl; rewrite ?settle_length; try done.
    + rewrite Forall_forall in Htex |- *. intros t' Hin.
      apply Htex. by eapply list_elem_of_delete_inv.
    + rewrite Forall_forall in Htt |- *. intros t' Hin.
      apply Htt. by eapply list_elem_of_delete_inv.
Qed.

Lemma run_wellformed (evs : list Event) : forall rpc : RPC,
  wellformed rpc -> wellformed (run evs rpc).
Proof.
  induction evs as [|ev evs IH]; intros rpc Hw; [done|].
  simpl. by apply IH, step_wellformed.
Qed.

(** X6. In every state that a node reaches from its construction, an entry
    of [msgPromises] leads to a promise that exists, no two ids lead to the
    same promise, and every waiting timeout is for a promise that exists,
    with the configured delay, which is not negative, and the error
    [{ code: 0, message: "timeout" }]. *)
Theorem reachable_wellformed (evs : list Event) (protocol : option string)
    (timeout : option Z) :
  wellformed (run evs (createRPC protocol timeout)).
Proof. apply run_wellformed, constructor_wellformed. Qed.

(** X7. A node made with a negative timeout never has a timeout waiting,
    whatever it does, so a timeout that runs out finds nothing to do. *)
Theorem negative_timeout_never_queues (evs : list Event) (protocol : option string)
    (timeout : Z) (k : nat) :
  (timeout < 0)%Z ->
  timers (run evs (createRPC protocol (Some timeout))) = []
  /\ step (TimeoutFires k) (run evs (createRPC protocol (Some timeout)))
     = run evs (createRPC protocol (Some timeout)).
Proof.
  intros Hneg.
  assert (timers (run evs (createRPC protocol (Some timeout))) = []) as Hnil.
  { pose proof (timers_are_timeouts _
                  (run_wellformed evs _ (constructor_wellformed protocol (Some timeout))))
      as Htt. fold (createRPC protocol (Some timeout)) in Htt.
    rewrite run_options_timeout in Htt. simpl in Htt.
    destruct (timers (run evs (createRPC protocol (Some timeout)))) as [|t ts]; [done|].
    apply Forall_cons in Htt as [(_ & Hpos & _) _]. lia. }
  split; [done|]. simpl. unfold timeout_fires. by rewrite Hnil.
Qed.

Lemma negative_timeout_never_queues_witness :
  timers (run [CallRequest "peerA" "echo" None; SendSettles 0 SendOk;
               CallRequest "peerB" "echo" None; SendSettles 0 SendOk]
              (createRPC None (Some (-1)%Z))) = [].
Proof.
  apply (negative_timeout_never_queues
           [CallRequest "peerA" "echo" None; SendSettles 0 SendOk;
            CallRequest "peerB" "echo" None; SendSettles 0 SendOk]
           None (-1)%Z 0).
  reflexivity.
Defined.

(** ** The ids on the wire *)

Lemma request_resume_sent (messageId : Z) (outcome : SendOutcome) (rpc : RPC) :
  sent (request_resume messageId outcome rpc).2 = sent rpc.
Proof.
  destruct outcome; simpl; [|done]. by destruct (options_timeout rpc <? 0)%Z.
Qed.

Lemma step_wire_ids (ev : Event) (rpc : RPC) :
  wire_ids (sent (step ev rpc)) = wire_ids (sent rpc) ++ issues ev rpc.
Proof.
  unfold wire_ids.
  destruct ev as [name m|peer name params|k o|peer name params o|msg peer o|k];
    simpl; rewrite ?app_nil_r; try done.
  - by rewrite omap_app.
  - destruct (suspended rpc !! k) as [messageId|]; [|done].
    by rewrite request_resume_sent.
  - rewrite omap_app. simpl. by rewrite app_nil_r.
  - destruct (handleMessage_effect msg peer o rpc)
      as [->|[(rq & id & reply & _ & _ & _ & ->)
             |(r & resolver & s & _ & _ & _ & ->)]]; simpl; try done.
    rewrite omap_app. simpl. by rewrite app_nil_r.
  - unfold timeout_fires. by destruct (timers rpc !! k).
Qed.

Lemma run_wire_ids (evs : list Event) : forall rpc : RPC,
  wire_ids (sent (run evs rpc)) = wire_ids (sent rpc) ++ issued evs rpc.
Proof.
  induction evs as [|ev evs IH]; intros rpc; simpl.
  - by rewrite app_nil_r.
  - by rewrite IH, step_wire_ids, app_assoc.
Qed.

(** X8. The requests that a node sends carry, in the order in which they are
    sent, the ids 0, 1, 2, ... without a gap, one for each call of [request],
    while the counter is within 2^53; nothing else that the node sends (a
    notification, a reply) carries a request id. *)
Theorem wire_ids_count_up (evs : list Event) (protocol : option string)
    (timeout : option Z) :
  (Z.of_nat (requests evs) <= MAX_EXACT)%Z ->
  wire_ids (sent (run evs (createRPC protocol timeout)))
  = seqZ 0 (Z.of_nat (requests evs)).
Proof.
  intros Hmax. unfold createRPC. rewrite run_wire_ids.
  by destruct (issued_in_range evs (constructor protocol timeout)) as [-> _].
Qed.

Lemma wire_ids_count_up_witness :
  wire_ids (sent (run [CallRequest "peerA" "echo" None;
                       CallNotify "peerA" "log" None SendOk;
                       Receives (inbound_request "missing" (Some 8%Z) None) "peerB" SendOk;
                       CallRequest "peerB" "echo" None]
                      (createRPC None None)))
  = [0; 1]%Z.
Proof.
  apply (wire_ids_count_up
           [CallRequest "peerA" "echo" None;
            CallNotify "peerA" "log" None SendOk;
            Receives (inbound_request "missing" (Some 8%Z) None) "peerB" SendOk;
            CallRequest "peerB" "echo" None] None None).
  vm_compute. discriminate.
Defined.

(** ** Registering a call *)

(** X9. In a state reached from the construction with the counter below
    2^53, a call of [request] whose send succeeds gets an id that has no
    entry yet and a promise that is new and pending; it adds that one entry
    to [msgPromises] and leaves the other entries and the other promises as
    they are. *)
Theorem registration_is_fresh (evs : list Event) (protocol : option string)
    (timeout : option Z) (peer : PeerId) (name : string)
    (params : option Uint8Array) :
  (Z.of_nat (requests evs) < MAX_EXACT)%Z ->
  let rpc := run evs (createRPC protocol timeout) in
  let messageId := (request_begin peer name params rpc).1 in
  let call := request peer name params SendOk rpc in
  msgPromises rpc !! messageId = None
  /\ call.1 = inr (length (promises rpc))
  /\ promises call.2 = promises rpc ++ [Pending]
  /\ msgPromises call.2 = <[messageId := length (promises rpc)]> (msgPromises rpc)
  /\ (forall id : Z, id <> messageId ->
        msgPromises call.2 !! id = msgPromises rpc !! id)
  /\ (forall p : Resolver, p < length (promises rpc) ->
        promises call.2 !! p = promises rpc !! p).
Proof.
  intros Hmax rpc messageId call.
  assert (tracked rpc) as Ht.
  { apply run_tracked; [apply constructor_tracked|simpl; lia]. }
  assert (msgPromises rpc !! messageId = None) as Hfree.
  { destruct (msgPromises rpc !! messageId) as [r|] eqn:Hr; [|done].
    pose proof (registered_below _ Ht _ _ Hr) as Hlt.
    change (genMsgId_id rpc < genMsgId_id rpc)%Z in Hlt. lia. }
  assert (call.1 = inr (length (promises rpc))
          /\ promises call.2 = promises rpc ++ [Pending]
          /\ msgPromises call.2
             = <[messageId := length (promises rpc)]> (msgPromises rpc)) as (H1 & H2 & H3).
  { subst call. unfold request. simpl. by destruct (options_timeout rpc <? 0)%Z. }
  split; [done|]. split; [done|]. split; [done|]. split; [done|]. split.
  - intros id Hne. rewrite H3. by apply lookup_insert_ne.
  - intros p Hp. rewrite H2. by apply lookup_app_l.
Qed.

Lemma registration_is_fresh_witness :
  let rpc := run [CallRequest "peerA" "echo" None; SendSettles 0 SendOk]
                 (createRPC None None) in
  msgPromises rpc !! 1%Z = None
  /\ (request "peerB" "add" None SendOk rpc).1 = inr 1.
Proof.
  intros rpc.
  pose proof (registration_is_fresh
                [CallRequest "peerA" "echo" None; SendSettles 0 SendOk]
                None None "peerB" "add" None) as H.
  destruct H as (Hfree & Hp & _).
  - vm_compute. reflexivity.
  - split; [exact Hfree|exact Hp].
Defined.

(** ** A call and its answer *)

Lemma request_ok (peer : PeerId) (name : string) (params : option Uint8Array)
    (rpc : RPC) :
  let call := request peer name params SendOk rpc in
  call.1 = inr (length (promises rpc))
  /\ promises call.2 = promises rpc ++ [Pending]
  /\ msgPromises call.2
     = <[genMsgId_id rpc := length (promises rpc)]> (msgPromises rpc)
  /\ sent call.2
     = sent rpc ++ [(peer, Messages.createRequest name (genMsgId_id rpc) params)]
  /\ methods call.2 = methods rpc.
Proof.
  unfold request. simpl. by destruct (options_timeout rpc <? 0)%Z.
Qed.

Lemma answer_settles (peer from : PeerId) (name : string)
    (params : option Uint8Array) (rpc : RPC) (r : Response) (outcome : SendOutcome) :
  res_id r = genMsgId_id rpc ->
  promises (handleMessage (inbound_response r) from outcome
                          (request peer name params SendOk rpc).2).2
    !! length (promises rpc)
  = Some match res_error r with
         | None => Fulfilled (res_result r)
         | Some error => Rejected error
         end.
Proof.
  intros Hid.
  destruct (request_ok peer name params rpc) as (_ & Hp & Hm & _).
  rewrite (handleMessage_response _ r from outcome (length (promises rpc))).
  - simpl. apply settle_pending. rewrite Hp.
    by rewrite lookup_app_r, Nat.sub_diag.
  - by rewrite Hm, Hid, lookup_insert_eq.
Qed.

(** X10. From any state: [request] sends, registers the call and hands back
    a promise; a response that then arrives with the id that the request
    carried settles that very promise, with the result it carries, or with
    its error when it has one. *)
Theorem call_round_trip (peer from : PeerId) (name : string)
    (params : option Uint8Array) (rpc : RPC) (r : Response) (outcome : SendOutcome) :
  let call := request peer name params SendOk rpc in
  last_sent call.2 = Some (peer, Messages.createRequest name (res_id r) params) ->
  exists p : Resolver,
    call.1 = inr p
    /\ promises call.2 !! p = Some Pending
    /\ promises (handleMessage (inbound_response r) from outcome call.2).2 !! p
       = Some match res_error r with
              | None => Fulfilled (res_result r)
              | Some error => Rejected error
              end.
Proof.
  intros call Hlast. subst call.
  destruct (request_ok peer name params rpc) as (Hr & Hp & _ & Hs & _).
  unfold last_sent in Hlast. rewrite Hs, last_snoc in Hlast.
  unfold Messages.createRequest in Hlast.
  assert (res_id r = genMsgId_id rpc) as Hid by congruence.
  exists (length (promises rpc)). split; [done|]. split.
  - rewrite Hp. by rewrite lookup_app_r, Nat.sub_diag.
  - by apply answer_settles.
Qed.

Lemma call_round_trip_witness :
  let call := request "peerB" "echo" None SendOk (createRPC None None) in
  let r := {| res_id := 0; res_result := Some [Byte.x07]; res_error := None |} in
  exists p : Resolver,
    call.1 = inr p
    /\ promises call.2 !! p = Some Pending
    /\ promises (handleMessage (inbound_response r) "peerB" SendOk call.2).2 !! p
       = Some (Fulfilled (Some [Byte.x07])).
Proof.
  intros call r.
  apply (call_round_trip "peerB" "peerB" "echo" None (createRPC None None) r SendOk).
  reflexivity.
Defined.

(** ** Two nodes *)







(** X14. [addMethod] replaces: after it, a request for that name is answered
    by the handler just registered, whatever was registered under the name
    before. *)
Theorem last_registration_answers (rpc : RPC) (name : string) (id : Z)
    (params result : option Uint8Array) (peer : PeerId) (outcome : SendOutcome)
    (method : RPCMethod) :
  method params peer = MethodReturns result ->
  handleMessage (inbound_request name (Some id) params) peer outcome
                (addMethod name method rpc)
  = return_send (Messages.createResponse id result) peer outcome
                (addMethod name method rpc).
Proof.
  intros Hr. unfold inbound_request.
  rewrite (handleMessage_request _ _ _ _ _ _ method); [by rewrite Hr|].
  apply lookup_insert_eq.
Qed.

Lemma last_registration_answers_witness :
  let rpc := addMethod "f" (explode (ThrownError "old")) (createRPC None None) in
  handleMessage (inbound_request "f" (Some 2%Z) (Some [Byte.x09])) "peerA" SendOk
                (addMethod "f" echo rpc)
  = return_send (Messages.createResponse 2 (Some [Byte.x09])) "peerA" SendOk
                (addMethod "f" echo rpc).
Proof.
  intros rpc.
  apply (last_registration_answers rpc "f" 2 (Some [Byte.x09]) (Some [Byte.x09])
           "peerA" SendOk echo).
  reflexivity.
Defined.

(** ** A response that comes too early *)

(** X15. [request] registers its call only once its send has settled.  A
    response with the id of a call whose send is still in flight finds no
    entry and is dropped; when the send then settles, the call is registered
    with a pending promise, which that response will not settle. *)
Theorem early_response_is_dropped (evs : list Event) (protocol : option string)
    (timeout : option Z) (peer from : PeerId) (name : string)
    (params : option Uint8Array) (r : Response) (outcome : SendOutcome) :
  let rpc := run evs (createRPC protocol timeout) in
  let rpc1 := step (CallRequest peer name params) rpc in
  let k := length (suspended rpc) in
  let rpc2 := step (SendSettles k SendOk)
                   (step (Receives (inbound_response r) from outcome) rpc1) in
  (Z.of_nat (requests evs) < MAX_EXACT)%Z ->
  res_id r = (request_begin peer name params rpc).1 ->
  suspended rpc1 !! k = Some (res_id r)
  /\ handleMessage (inbound_response r) from outcome rpc1 = (Completed, rpc1)
  /\ exists p : Resolver,
       msgPromises rpc2 !! res_id r = Some p /\ promises rpc2 !! p = Some Pending.
Proof.
  intros rpc rpc1 k rpc2 Hmax Hid.
  change ((request_begin peer name params rpc).1) with (genMsgId_id rpc) in Hid.
  assert (tracked rpc) as Ht.
  { apply run_tracked; [apply constructor_tracked|simpl; lia]. }
  assert (suspended rpc1 !! k = Some (res_id r)) as Hk.
  { subst rpc1 k. simpl. rewrite Hid. by rewrite lookup_app_r, Nat.sub_diag. }
  assert (msgPromises rpc1 !! res_id r = None) as Hnone.
  { change (msgPromises rpc1) with (msgPromises rpc).
    destruct (msgPromises rpc !! res_id r) as [p|] eqn:Hp; [|done].
    pose proof (registered_below _ Ht _ _ Hp). lia. }
  assert (handleMessage (inbound_response r) from outcome rpc1 = (Completed, rpc1))
    as Hdrop by by apply handleMessage_unknown_response.
  split; [done|]. split; [done|].
  subst rpc2. cbn [step]. rewrite Hdrop. cbn [snd]. rewrite Hk.
  set (rpc1' := with_suspended (delete k (suspended rpc1)) rpc1).
  exists (length (promises rpc1')).
  destruct (Z.ltb_spec (options_timeout rpc1') 0) as [Hneg|Hpos].
  - by destruct (request_resume_no_watchdog (res_id r) rpc1' Hneg) as (_ & ? & ?).
  - by destruct (request_resume_schedules (res_id r) rpc1' Hpos) as (_ & ? & ?).
Qed.

Lemma early_response_is_dropped_witness :
  let rpc1 := step (CallRequest "peerB" "echo" None) (createRPC None None) in
  let r := {| res_id := 0; res_result := None; res_error := None |} in
  handleMessage (inbound_response r) "peerB" SendOk rpc1 = (Completed, rpc1).
Proof.
  intros rpc1 r.
  apply (early_response_is_dropped [] None None "peerB" "peerB" "echo" None r SendOk).
  - vm_compute. reflexivity.
  - reflexivity.
Defined.

(** ** Responses in any order *)

Lemma settle_lookup (q : Resolver) (s' : Settlement) (ps : list Settlement)
    (i : nat) :
  settle q s' ps !! i
  = if decide (i = q)
    then match ps !! q with Some Pending => Some s' | other => other end
    else ps !! i.
Proof.
  case_decide as Hi.
  - subst i. unfold settle. destruct (ps !! q) as [[ | | ]|] eqn:Hq; try done.
    apply list_lookup_insert_eq. by eapply lookup_lt_Some.
  - by apply settle_other.
Qed.

Lemma settle_commute (p q : Resolver) (s s' : Settlement) (ps : list Settlement) :
  p <> q -> settle p s (settle q s' ps) = settle q s' (settle p s ps).
Proof.
  intros Hne. apply list_eq. intros i. rewrite !settle_lookup.
  repeat case_decide; by subst.
Qed.

Lemma handleMessage_response_state (rpc : RPC) (r : Response) (peer : PeerId)
    (outcome : SendOutcome) :
  (handleMessage (inbound_response r) peer outcome rpc).2
  = match msgPromises rpc !! res_id r with
    | None => rpc
    | Some resolver =>
        with_promises
          (settle resolver
             match res_error r with
             | None => Fulfilled (res_result r)
             | Some error => Rejected error
             end (promises rpc))
          (with_msgPromises (delete (res_id r) (msgPromises rpc)) rpc)
    end.
Proof.
  destruct (msgPromises rpc !! res_id r) as [resolver|] eqn:Hr.
  - by rewrite (handleMessage_response _ _ _ _ _ Hr).
  - by rewrite handleMessage_unknown_response.
Qed.

(** X16. Responses are matched by id, not by the order in which they come:
    in a state reached from the construction, two responses with different
    ids leave the object in the same state whichever is handled first. *)
Theorem responses_commute (evs : list Event) (protocol : option string)
    (timeout : option Z) (r1 r2 : Response) (peer1 peer2 : PeerId)
    (outcome1 outcome2 : SendOutcome) :
  res_id r1 <> res_id r2 ->
  let rpc := run evs (createRPC protocol timeout) in
  (handleMessage (inbound_response r2) peer2 outcome2
     (handleMessage (inbound_response r1) peer1 outcome1 rpc).2).2
  = (handleMessage (inbound_response r1) peer1 outcome1
       (handleMessage (inbound_response r2) peer2 outcome2 rpc).2).2.
Proof.
  intros Hne rpc.
  assert (wellformed rpc) as Hw by apply run_wellformed, constructor_wellformed.
  rewrite !handleMessage_response_state.
  destruct (msgPromises rpc !! res_id r1) as [p1|] eqn:H1;
    destruct (msgPromises rpc !! res_id r2) as [p2|] eqn:H2; simpl;
    rewrite ?lookup_delete_ne, ?H1, ?H2 by done; simpl; try done.
  assert (p1 <> p2) as Hp.
  { intros ->. apply Hne. by eapply (resolvers_distinct _ Hw). }
  unfold with_promises, with_msgPromises. simpl. f_equal.
  - apply delete_delete.
  - by apply settle_commute.
Qed.

Lemma responses_commute_witness :
  let rpc := run [CallRequest "peerB" "echo" None; SendSettles 0 SendOk;
                  CallRequest "peerC" "echo" None; SendSettles 0 SendOk]
                 (createRPC None None) in
  let r1 := {| res_id := 0; res_result := Some [Byte.x01]; res_error := None |} in
  let r2 := {| res_id := 1; res_result := None;
               res_error := Some {| code := 3; message := "no" |} |} in
  (handleMessage (inbound_response r2) "peerC" SendOk
     (handleMessage (inbound_response r1) "peerB" SendOk rpc).2).2
  = (handleMessage (inbound_response r1) "peerB" SendOk
       (handleMessage (inbound_response r2) "peerC" SendOk rpc).2).2.
Proof.
  intros rpc r1 r2.
  apply (responses_commute
           [CallRequest "peerB" "echo" None; SendSettles 0 SendOk;
            CallRequest "peerC" "echo" None; SendSettles 0 SendOk]
           None None r1 r2 "peerB" "peerC" SendOk SendOk).
  discriminate.
Defined.

(** ** The two listings of [request] *)

(** X17. The two listings of [request] differ by the timeout only: on the
    same input they give the same result, the same entries, promises, sent
    messages and counter; the TypeScript one never queues a timeout; and
    they are equal when the timeout is negative or the send fails. *)
Theorem request_listings_agree (peer : PeerId) (name : string)
    (params : option Uint8Array) (outcome : SendOutcome) (rpc : RPC) :
  let js := request peer name params outcome rpc in
  let ts := request_ts peer name params outcome rpc in
  js.1 = ts.1
  /\ msgPromises js.2 = msgPromises ts.2
  /\ promises js.2 = promises ts.2
  /\ sent js.2 = sent ts.2
  /\ genMsgId_id js.2 = genMsgId_id ts.2
  /\ timers ts.2 = timers rpc
  /\ ((options_timeout rpc < 0)%Z \/ outcome <> SendOk -> js = ts).
Proof.
  unfold request, request_ts. simpl.
  destruct outcome as [|e]; simpl.
  - destruct (Z.ltb_spec (options_timeout rpc) 0); simpl; repeat split; try done.
    intros [Hneg|Hout]; [lia|done].
  - by repeat split.
Qed.

(** ** Timeouts that run out *)

(** X18. A timeout that runs out sends nothing, registers nothing and takes
    no id; it leaves every promise but its own as it is, and its own too
    when that one is already settled. *)
Theorem timeout_touches_its_call_only (k : nat) (t : Timer) (rpc : RPC) :
  timers rpc !! k = Some t ->
  let rpc' := timeout_fires k rpc in
  sent rpc' = sent rpc
  /\ methods rpc' = methods rpc
  /\ genMsgId_id rpc' = genMsgId_id rpc
  /\ length (promises rpc') = length (promises rpc)
  /\ (forall p : Resolver, p <> timer_reject t -> promises rpc' !! p = promises rpc !! p)
  /\ (forall s : Settlement,
        promises rpc !! timer_reject t = Some s -> s <> Pending ->
        promises rpc' = promises rpc).
Proof.
  intros Hk rpc'. subst rpc'. unfold timeout_fires. rewrite Hk. simpl.
  repeat split.
  - apply settle_length.
  - intros p Hne. by apply settle_other.
  - intros s Hs Hset. unfold settle. rewrite Hs. by destruct s.
Qed.

Lemma timeout_touches_its_call_only_witness :
  let rpc := (request "peerA" "echo" None SendOk (createRPC None None)).2 in
  sent (timeout_fires 0 rpc) = sent rpc.
Proof.
  intros rpc.
  apply (timeout_touches_its_call_only 0
           {| timer_delay := 5000; timer_reject := 0;
              timer_error := {| code := 0; message := "timeout" |} |} rpc).
  reflexivity.
Defined.

Lemma settle_still_pending (q p : Resolver) (s : Settlement) (ps : list Settlement) :
  s <> Pending -> settle q s ps !! p = Some Pending -> ps !! p = Some Pending.
Proof.
  intros Hs. rewrite settle_lookup. case_decide as Hp; [|done].
  subst p. by destruct (ps !! q) as [[ | | ]|]; try done; intros [= ->].
Qed.

Lemma settle_not_pending (q : Resolver) (s : Settlement) (ps : list Settlement) :
  s <> Pending -> settle q s ps !! q <> Some Pending.
Proof.
  intros Hs. rewrite settle_lookup. case_decide; [|done].
  by destruct (ps !! q) as [[ | | ]|]; try done; intros [= ->].
Qed.

Lemma step_watched (ev : Event) (rpc : RPC) :
  (0 <= options_timeout rpc)%Z -> watched rpc -> watched (step ev rpc).
Proof.
  intros Hpos Hw.
  destruct ev as [name m|peer name params|k o|peer name params o|msg peer o|k];
    try exact Hw.
  - simpl. destruct (suspended rpc !! k) as [messageId|]; [|exact Hw].
    destruct o as [|e]; [|exact Hw].
    simpl. destruct (Z.ltb_spec (options_timeout rpc) 0); [lia|].
    intros p. simpl. intros Hp.
    destruct (decide (p < length (promises rpc))) as [Hlt|Hge].
    + rewrite lookup_app_l in Hp by done.
      destruct (Hw p Hp) as (j & t & Hj & Ht). exists j, t. split; [|done].
      rewrite lookup_app_l; [done|]. by eapply lookup_lt_Some.
    + pose proof (lookup_lt_Some _ _ _ Hp) as Hlen. rewrite length_app in Hlen.
      simpl in Hlen. exists (length (timers rpc)). eexists. split.
      * by rewrite lookup_app_r, Nat.sub_diag.
      * simpl. lia.
  - simpl. unfold handleMessage.
    destruct (RPCProtocol.request msg) as [rq|].
    + destruct (methods rpc !! req_name rq) as [m|].
      * destruct (m (req_params rq) peer) as [res|err]; [|destruct (caught err)];
          by destruct (req_id rq).
      * by destruct (req_id rq).
    + destruct (RPCProtocol.response msg) as [r'|]; [|exact Hw].
      destruct (msgPromises rpc !! res_id r') as [resolver'|]; [|exact Hw].
      destruct (res_error r'); intros p Hp; simpl in Hp;
        apply settle_still_pending in Hp; try done; by apply Hw.
  - simpl. unfold timeout_fires.
    destruct (timers rpc !! k) as [t|] eqn:Hk; [|exact Hw].
    intros p. simpl. intros Hp.
    assert (p <> timer_reject t) as Hne.
    { intros ->. revert Hp. by apply settle_not_pending. }
    rewrite settle_other in Hp by done.
    destruct (Hw p Hp) as (j & t' & Hj & Ht').
    assert (j <> k) as Hjk by (intros ->; congruence).
    destruct (decide (j < k)) as [Hlt|Hge].
    + exists j, t'. split; [|done]. by rewrite list_lookup_delete_lt.
    + exists (j - 1), t'. split; [|done].
      rewrite list_lookup_delete_ge by lia. rewrite <- Hj. f_equal. lia.
Qed.

Lemma run_watched (evs : list Event) : forall rpc : RPC,
  (0 <= options_timeout rpc)%Z -> watched rpc -> watched (run evs rpc).
Proof.
  induction evs as [|ev evs IH]; intros rpc Hpos Hw; [done|].
  simpl. apply IH; [by rewrite step_options_timeout|by apply step_watched].
Qed.

(** X19. With a timeout that is not negative, a call that has been
    registered is not left without a timeout: in every state reached from
    the construction, each promise of the store that is still pending has a
    timeout waiting for it, and when that one runs out the promise is
    rejected with [{ code: 0, message: "timeout" }].  The promises of the
    store are those made at line 212, once the send has succeeded; a call
    whose send has not settled has no promise there and no timeout, and the
    statement says nothing of it. *)
Theorem pending_calls_can_time_out (evs : list Event) (protocol : option string)
    (timeout : option Z) (p : Resolver) :
  (0 <= default 5000%Z timeout)%Z ->
  let rpc := run evs (createRPC protocol timeout) in
  promises rpc !! p = Some Pending ->
  exists k : nat,
    k < length (timers rpc)
    /\ promises (timeout_fires k rpc) !! p
       = Some (Rejected {| code := 0; message := "timeout" |}).
Proof.
  intros Hpos rpc Hp.
  assert (watched rpc) as Hw.
  { apply run_watched; [exact Hpos|]. intros q Hq. simpl in Hq. discriminate. }
  destruct (Hw p Hp) as (k & t & Hk & Ht).
  pose proof (timers_are_timeouts _
                (run_wellformed evs _ (constructor_wellformed protocol timeout)))
    as Htt.
  fold (createRPC protocol timeout) in Htt. fold rpc in Htt.
  rewrite Forall_forall in Htt.
  destruct (Htt t) as (_ & _ & Herr); [by eapply list_elem_of_lookup_2|].
  exists k. split; [by eapply lookup_lt_Some|].
  subst p. rewrite <- Herr. by apply timeout_fires_rejects.
Qed.

Lemma pending_calls_can_time_out_witness :
  let rpc := run [CallRequest "peerA" "echo" None; SendSettles 0 SendOk;
                  CallRequest "peerB" "echo" None; SendSettles 0 SendOk;
                  TimeoutFires 0]
                 (createRPC None (Some 50%Z)) in
  exists k : nat,
    k < length (timers rpc)
    /\ promises (timeout_fires k rpc) !! 1
       = Some (Rejected {| code := 0; message := "timeout" |}).
Proof.
  intros rpc.
  apply (pending_calls_can_time_out
           [CallRequest "peerA" "echo" None; SendSettles 0 SendOk;
            CallRequest "peerB" "echo" None; SendSettles 0 SendOk;
            TimeoutFires 0] None (Some 50%Z) 1).
  - vm_compute. discriminate.
  - reflexivity.
Defined.

(** ** A notification between two nodes *)

Lemma handleMessage_notification (rpc : RPC) (name : string)
    (params : option Uint8Array) (peer : PeerId) (outcome : SendOutcome) :
  handleMessage (inbound_request name None params) peer outcome rpc = (Completed, rpc).
Proof.
  unfold handleMessage, inbound_request.
  cbn [RPCProtocol.request req_name req_id req_params].
  destruct (methods rpc !! name) as [method|]; [|done].
  by destruct (method params peer) as [r|err]; [|destruct (caught err)].
Qed.

(** X20. Node [a] notifies node [b], and [b] is given the message that [a]
    sent.  Whether or not [b] has a handler for the name, and whatever the
    handler does, [b] sends nothing and is left as it was; on [a] nothing is
    registered, no promise is made and no id is taken. *)
Theorem remote_notification_is_silent (a b : RPC) (peerA peerB : PeerId)
    (name : string) (params : option Uint8Array) (outcomeA outcomeB : SendOutcome) :
  let a' := (notify peerB name params outcomeA a).2 in
  exists message : RPCMessage,
    last_sent a' = Some (peerB, message)
    /\ handleMessage message peerA outcomeB b = (Completed, b)
    /\ msgPromises a' = msgPromises a
    /\ promises a' = promises a
    /\ timers a' = timers a
    /\ genMsgId_id a' = genMsgId_id a.
Proof.
  intros a'. exists (Messages.createNotification name params).
  split; [by unfold last_sent; simpl; rewrite last_snoc|].
  split; [apply handleMessage_notification|done].
Qed.
